(** * InkCanvas: the stroke lifecycle controller of the Babylon.js ink sample

    A shallow embedding of [src/inkCanvas.ts].  The class [InkCanvas] keeps
    two arrays of path meshes (the undo list [_paths] and the redo list
    [_redoPaths]), an optional path in progress ([_currentPath]) and the
    brush settings.  Its methods mutate the canvas object and the Babylon
    scene it was built on; both are threaded explicitly through a small
    state-and-exception monad.

    Objects are modelled by identity: the scene carries an object store
    [objects], a mesh is referred to by its index in that store, and the
    arrays of the canvas hold such references, so that "the same stroke
    object" is equality of references.

    JavaScript numbers are modelled as rationals: the properties below only
    pass numbers along or look at the sign of a product. *)

From Stdlib Require Import QArith.
From stdpp Require Import base list sets sorting strings.
From Equations Require Import Equations.

Open Scope string_scope.
Open Scope list_scope.

(** ** Values of the host library that the canvas handles *)

Module Vector3.
Record t := mk { x : Q; y : Q; z : Q }.
End Vector3.

Module Color3.
Record t := mk { r : Q; g : Q; b : Q }.
Definition White : t := mk 1 1 1.
Definition Black : t := mk 0 0 0.
End Color3.

(** [const enum Brush { pen }] is erased by the compiler: the field
    [_currentMode] holds the number of the member. *)
Definition Brush := N.
Definition pen : Brush := 0%N.

(** What a method call hands back to JavaScript: a bare [return;] yields
    [undefined], [return true] and [return false] yield booleans. *)
Inductive JsValue :=
| undefined
| JsBoolean (b : bool).

(** A reference to a mesh object: its index in the object store. *)
Definition MeshId := nat.

Inductive MaterialKind :=
| StandardMaterial
| DebugMaterial
| SimpleMaterial (color : Color3.t)
| RainbowMaterial.

Record Material := mkMaterial {
  mat_name : string;
  mat_kind : MaterialKind;
  backFaceCulling : bool;
  isFrozen : bool
}.

(** [Partial<PathBufferDataOptions>]: every member may be absent. *)
Record PathBufferDataOptions := mkOptions {
  radius : option Q;
  debounce : option Q;
  roundness : option Q
}.

(** The two kinds of mesh the canvas creates: the drawing plane of the
    constructor, and path meshes.  A path mesh remembers the arguments of
    its constructor and the points handed to [addPointToPath], oldest
    first. *)
Inductive Geometry :=
| Plane (name : string) (size : Q)
| Path (name : string) (seed : Q * Q) (options : PathBufferDataOptions)
       (points : list (Q * Q)).

Record Mesh := mkMesh {
  geometry : Geometry;
  material : option Material;
  parent : option MeshId;
  renderingGroupId : Z;
  isPickable : bool;
  alwaysSelectAsActiveMesh : bool;
  worldMatrixFrozen : bool;
  isDisposed : bool
}.

Definition is_path (m : Mesh) : bool :=
  match geometry m with Path _ _ _ _ => true | Plane _ _ => false end.

(** Requests issued to the scene host, in the order they were made. *)
Inductive SceneCall :=
| removeMesh (m : MeshId)
| addMesh (m : MeshId)
| dispose (m : MeshId).

Record Scene := mkScene {
  pointerX : Q;
  pointerY : Q;
  objects : list Mesh;
  calls : list SceneCall
}.

Record PickingInfo := mkPickingInfo {
  hit : bool;
  pickedMesh : MeshId;
  pickedPoint : Vector3.t
}.

(** [pickInfo?.hit], as a condition: a missing [pickInfo] counts as a miss. *)
Definition pick_hit (pickInfo : option PickingInfo) : bool :=
  match pickInfo with
  | Some info => hit info
  | None => false
  end.

Inductive Error :=
| InvalidBrushParameter.

(** How a call ends: with a value, or with an exception that unwinds it. *)
Inductive Completion (A : Type) :=
| Normal (v : A)
| Throw (e : Error).
Arguments Normal {A} v.
Arguments Throw {A} e.

(** ** Array operations *)

(** [Array.prototype.pop]: the last element (or [undefined] on an empty
    array) and the array without it. *)
Definition pop {A} (l : list A) : option A * list A :=
  (last l, removelast l).

(** [Array.prototype.push]. *)
Definition push {A} (l : list A) (a : A) : list A := l ++ [a].

(** A value together with the equation that names it, for recursion that
    has to remember what a call returned. *)
Definition inspect {A} (a : A) : {b : A | a = b} := exist _ a eq_refl.

(** ** The collaborators the canvas is built on

    The matrix type and its operations, the world matrix of a mesh and the
    scene's [pick] belong to the host library.  [PathMesh_accepts] tells
    whether the constructor of [PathMesh] ([./path/pathMesh]) goes through
    with the given options or throws. *)
Class Host := {
  Matrix : Type;
  Matrix_new : Matrix;
  getWorldMatrix : Scene -> MeshId -> Matrix;
  invert : Matrix -> Matrix;
  TransformCoordinates : Vector3.t -> Matrix -> Vector3.t;
  pick : Scene -> Q -> Q -> option PickingInfo;
  PathMesh_accepts : PathBufferDataOptions -> bool
}.

(** Materials of [./materials]: each factory returns a fresh material with
    the library's default settings.

    Modelled from the spec: the factories [createDebugMaterial],
    [createSimpleMaterial] and [createRainbowMaterial] are not among the
    sources; the spec treats the material as an opaque handle chosen from
    the mode, the colour and the debug flag, so only the kind is kept. *)
Definition createDebugMaterial (name : string) : Material :=
  mkMaterial name DebugMaterial true false.
Definition createSimpleMaterial (name : string) (color : Color3.t) : Material :=
  mkMaterial name (SimpleMaterial color) true false.
Definition createRainbowMaterial (name : string) : Material :=
  mkMaterial name RainbowMaterial true false.

Definition set_backFaceCulling (v : bool) (m : Material) : Material :=
  mkMaterial (mat_name m) (mat_kind m) v (isFrozen m).
Definition freeze (m : Material) : Material :=
  mkMaterial (mat_name m) (mat_kind m) (backFaceCulling m) true.

(** ** Field updates of a mesh object *)

Definition set_geometry (v : Geometry) (m : Mesh) : Mesh :=
  mkMesh v (material m) (parent m) (renderingGroupId m) (isPickable m)
         (alwaysSelectAsActiveMesh m) (worldMatrixFrozen m) (isDisposed m).
Definition set_material (v : option Material) (m : Mesh) : Mesh :=
  mkMesh (geometry m) v (parent m) (renderingGroupId m) (isPickable m)
         (alwaysSelectAsActiveMesh m) (worldMatrixFrozen m) (isDisposed m).
Definition set_parent (v : option MeshId) (m : Mesh) : Mesh :=
  mkMesh (geometry m) (material m) v (renderingGroupId m) (isPickable m)
         (alwaysSelectAsActiveMesh m) (worldMatrixFrozen m) (isDisposed m).
Definition set_renderingGroupId (v : Z) (m : Mesh) : Mesh :=
  mkMesh (geometry m) (material m) (parent m) v (isPickable m)
         (alwaysSelectAsActiveMesh m) (worldMatrixFrozen m) (isDisposed m).
Definition set_isPickable (v : bool) (m : Mesh) : Mesh :=
  mkMesh (geometry m) (material m) (parent m) (renderingGroupId m) v
         (alwaysSelectAsActiveMesh m) (worldMatrixFrozen m) (isDisposed m).
Definition set_alwaysSelectAsActiveMesh (v : bool) (m : Mesh) : Mesh :=
  mkMesh (geometry m) (material m) (parent m) (renderingGroupId m)
         (isPickable m) v (worldMatrixFrozen m) (isDisposed m).
Definition set_worldMatrixFrozen (v : bool) (m : Mesh) : Mesh :=
  mkMesh (geometry m) (material m) (parent m) (renderingGroupId m)
         (isPickable m) (alwaysSelectAsActiveMesh m) v (isDisposed m).
Definition set_isDisposed (v : bool) (m : Mesh) : Mesh :=
  mkMesh (geometry m) (material m) (parent m) (renderingGroupId m)
         (isPickable m) (alwaysSelectAsActiveMesh m) (worldMatrixFrozen m) v.

(** [mesh.material.freeze()]. *)
Definition freeze_material (m : Mesh) : Mesh :=
  set_material (freeze <$> material m) m.

(** What [addPointToPath] leaves in a path mesh. *)
Definition add_point (p : Q * Q) (m : Mesh) : Mesh :=
  match geometry m with
  | Path name seed options points =>
      set_geometry (Path name seed options (points ++ [p])) m
  | Plane _ _ => m
  end.

(** ** Updates of the scene *)

Definition set_objects (v : list Mesh) (sc : Scene) : Scene :=
  mkScene (pointerX sc) (pointerY sc) v (calls sc).
Definition set_calls (v : list SceneCall) (sc : Scene) : Scene :=
  mkScene (pointerX sc) (pointerY sc) (objects sc) v.
Definition set_pointer (px py : Q) (sc : Scene) : Scene :=
  mkScene px py (objects sc) (calls sc).

(** A newly constructed mesh enters the store at the next free reference. *)
Definition add_object (m : Mesh) (sc : Scene) : Scene :=
  set_objects (objects sc ++ [m]) sc.
Definition update_object (i : MeshId) (f : Mesh -> Mesh) (sc : Scene) : Scene :=
  set_objects (alter f i (objects sc)) sc.
Definition record_call (c : SceneCall) (sc : Scene) : Scene :=
  set_calls (calls sc ++ [c]) sc.

(** [scene.removeMesh(path)] and [scene.addMesh(path)]. *)
Definition Scene_removeMesh (path : MeshId) (sc : Scene) : Scene :=
  record_call (removeMesh path) sc.
Definition Scene_addMesh (path : MeshId) (sc : Scene) : Scene :=
  record_call (addMesh path) sc.
(** [path.dispose()]: the request is issued and the object is dead. *)
Definition Mesh_dispose (path : MeshId) (sc : Scene) : Scene :=
  record_call (dispose path) (update_object path (set_isDisposed true) sc).

(** Disposing the meshes of a list one after the other. *)
Definition dispose_all (l : list MeshId) (sc : Scene) : Scene :=
  foldl (fun sc path => Mesh_dispose path sc) sc l.

(** Scene membership of a mesh as the host keeps it: a mesh joins the scene
    when it is constructed; the last request that names it decides. *)
Definition attached (cs : list SceneCall) (m : MeshId) : bool :=
  foldl (fun acc c =>
           match c with
           | addMesh m' => if decide (m' = m) then true else acc
           | removeMesh m' => if decide (m' = m) then false else acc
           | dispose m' => if decide (m' = m) then false else acc
           end) true cs.

(** JavaScript truthiness of a nullable reference. *)
Definition truthy {A} (o : option A) : bool :=
  match o with Some _ => true | None => false end.

Section Canvas.
Context `{Host}.

(** The private fields of [InkCanvas].  [_scene] is a reference to the
    shared scene object, which is threaded next to the canvas. *)
Record InkCanvas := mkInkCanvas {
  _debug : bool;
  _paths : list MeshId;
  _redoPaths : list MeshId;
  _currentPath : option MeshId;
  _currentSize : Q;
  _sizeScaleFactor : Q;
  _currentColor : Color3.t;
  _currentMode : Brush;
  _invertedWorldMatrix : Matrix
}.

Definition set_paths (v : list MeshId) (st : InkCanvas) : InkCanvas :=
  mkInkCanvas (_debug st) v (_redoPaths st) (_currentPath st) (_currentSize st)
    (_sizeScaleFactor st) (_currentColor st) (_currentMode st)
    (_invertedWorldMatrix st).
Definition set_redoPaths (v : list MeshId) (st : InkCanvas) : InkCanvas :=
  mkInkCanvas (_debug st) (_paths st) v (_currentPath st) (_currentSize st)
    (_sizeScaleFactor st) (_currentColor st) (_currentMode st)
    (_invertedWorldMatrix st).
Definition set_currentPath (v : option MeshId) (st : InkCanvas) : InkCanvas :=
  mkInkCanvas (_debug st) (_paths st) (_redoPaths st) v (_currentSize st)
    (_sizeScaleFactor st) (_currentColor st) (_currentMode st)
    (_invertedWorldMatrix st).
Definition set_currentSize (v : Q) (st : InkCanvas) : InkCanvas :=
  mkInkCanvas (_debug st) (_paths st) (_redoPaths st) (_currentPath st) v
    (_sizeScaleFactor st) (_currentColor st) (_currentMode st)
    (_invertedWorldMatrix st).
Definition set_currentColor (v : Color3.t) (st : InkCanvas) : InkCanvas :=
  mkInkCanvas (_debug st) (_paths st) (_redoPaths st) (_currentPath st)
    (_currentSize st) (_sizeScaleFactor st) v (_currentMode st)
    (_invertedWorldMatrix st).
Definition set_currentMode (v : Brush) (st : InkCanvas) : InkCanvas :=
  mkInkCanvas (_debug st) (_paths st) (_redoPaths st) (_currentPath st)
    (_currentSize st) (_sizeScaleFactor st) (_currentColor st) v
    (_invertedWorldMatrix st).
Definition set_invertedWorldMatrix (v : Matrix) (st : InkCanvas) : InkCanvas :=
  mkInkCanvas (_debug st) (_paths st) (_redoPaths st) (_currentPath st)
    (_currentSize st) (_sizeScaleFactor st) (_currentColor st)
    (_currentMode st) v.

(** *** The monad of method bodies

    A method reads and writes the canvas ([this]) and the scene, and ends
    with a value or with an exception; what was written before a throw
    stays written. *)
Definition M (A : Type) : Type :=
  InkCanvas -> Scene -> Completion A * InkCanvas * Scene.

Definition ret {A} (a : A) : M A := fun st sc => (Normal a, st, sc).
Definition throw {A} (e : Error) : M A := fun st sc => (Throw e, st, sc).
Definition bind {A B} (m : M A) (k : A -> M B) : M B :=
  fun st sc =>
    match m st sc with
    | (Normal a, st', sc') => k a st' sc'
    | (Throw e, st', sc') => (Throw e, st', sc')
    end.
Definition this : M InkCanvas := fun st sc => (Normal st, st, sc).
Definition scene : M Scene := fun st sc => (Normal sc, st, sc).
Definition assign (f : InkCanvas -> InkCanvas) : M unit :=
  fun st sc => (Normal tt, f st, sc).
Definition on_scene (f : Scene -> Scene) : M unit :=
  fun st sc => (Normal tt, st, f sc).
Definition on_mesh (i : MeshId) (f : Mesh -> Mesh) : M unit :=
  on_scene (update_object i f).

Declare Scope canvas_scope.
Delimit Scope canvas_scope with canvas.
Notation "x <- c ;; k" := (bind c (fun x => k))
  (at level 100, c at next level, k at level 200, right associativity) : canvas_scope.
Notation "c ;; k" := (bind c (fun _ => k))
  (at level 100, k at level 200, right associativity) : canvas_scope.
Local Open Scope canvas_scope.

(** *** The constructor *)

(** [new InkCanvas(scene, debug)]: the fields are initialised and the
    drawing plane, with its grey material, is created on the scene.  The
    placement of the plane shows only through [getWorldMatrix]. *)
Definition new_InkCanvas (scene : Scene) (debug : bool) : InkCanvas * Scene :=
  let greyMat := mkMaterial "grey" StandardMaterial true false in
  let drawingPlane :=
    mkMesh (Plane "Drawing Plane 1" 5) (Some greyMat) None 0 true false false false in
  (mkInkCanvas debug [] [] None 5 (1 # 100) Color3.White pen Matrix_new,
   add_object drawingPlane scene).

(** *** Private helpers *)

(** Modelled from the spec: the class [PathMesh] ([./path/pathMesh]) is not
    among the sources.  [new PathMesh(name, scene, x, y, options)] either
    throws [InvalidBrushParameter], as [PathMesh_accepts] decides, or a new
    mesh seeded at [(x, y)] enters the scene, with the defaults of a mesh
    of the host library ([isPickable] on), and its reference is
    returned. *)
Definition PathMesh_new (name : string) (x y : Q)
    (options : PathBufferDataOptions) : M MeshId :=
  if PathMesh_accepts options then
    sc <- scene ;;
    on_scene (add_object
      (mkMesh (Path name (x, y) options []) None None 0 true false false false)) ;;
    ret (length (objects sc))
  else throw InvalidBrushParameter.

(** Modelled from the spec: [path.addPointToPath(x, y)] hands the point to
    the stroke; the mesh keeps the points it was handed, and what the
    buffer makes of them (debounce, tessellation) is not modelled. *)
Definition addPointToPath (path : MeshId) (x y : Q) : M unit :=
  on_mesh path (add_point (x, y)).

Definition _createPathMaterial : M Material :=
  st <- this ;;
  if _debug st then
    ret (set_backFaceCulling false (createDebugMaterial "debugMaterial"))
  else if (_currentMode st =? pen)%N then
    ret (set_backFaceCulling false
           (createSimpleMaterial "pathMaterial" (_currentColor st)))
  else
    ret (set_backFaceCulling false (createRainbowMaterial "pathMaterial")).

Definition _createPath (x y : Q) : M MeshId :=
  st <- this ;;
  let options :=
    mkOptions (Some (_currentSize st * _sizeScaleFactor st)%Q) None None in
  let options :=
    if _debug st then mkOptions (radius options) (Some 1%Q) (Some 8%Q)
    else options in
  PathMesh_new "path" x y options.

(** *** Public methods *)

Definition startPath : M JsValue :=
  st <- this ;;
  match _currentPath st with
  | Some _ => ret undefined
  | None =>
      (* Cleanup the redo list *)
      assign (set_redoPaths []) ;;
      sc <- scene ;;
      match pick sc (pointerX sc) (pointerY sc) with
      | Some pickInfo =>
          if hit pickInfo then
            assign (set_invertedWorldMatrix
                      (invert (getWorldMatrix sc (pickedMesh pickInfo)))) ;;
            st <- this ;;
            let localCoordinates :=
              TransformCoordinates (pickedPoint pickInfo) (_invertedWorldMatrix st) in
            path <- _createPath (Vector3.x localCoordinates)
                                (Vector3.y localCoordinates) ;;
            assign (set_currentPath (Some path)) ;;
            mat <- _createPathMaterial ;;
            on_mesh path (set_material (Some mat)) ;;
            on_mesh path (set_parent (Some (pickedMesh pickInfo))) ;;
            on_mesh path (set_renderingGroupId 2) ;;
            (* Quick Optim *)
            on_mesh path (set_isPickable false) ;;
            on_mesh path freeze_material ;;
            on_mesh path (set_alwaysSelectAsActiveMesh true) ;;
            on_mesh path (set_worldMatrixFrozen true) ;;
            ret (JsBoolean true)
          else ret (JsBoolean false)
      | None => ret (JsBoolean false)
      end
  end.

Definition extendPath : M JsValue :=
  st <- this ;;
  match _currentPath st with
  | None => ret undefined
  | Some path =>
      sc <- scene ;;
      match pick sc (pointerX sc) (pointerY sc) with
      | Some pickInfo =>
          if hit pickInfo then
            assign (set_invertedWorldMatrix
                      (invert (getWorldMatrix sc (pickedMesh pickInfo)))) ;;
            st <- this ;;
            let localCoordinates :=
              TransformCoordinates (pickedPoint pickInfo) (_invertedWorldMatrix st) in
            addPointToPath path (Vector3.x localCoordinates)
                                (Vector3.y localCoordinates) ;;
            ret (JsBoolean true)
          else ret (JsBoolean false)
      | None => ret (JsBoolean false)
      end
  end.

Definition endPath : M unit :=
  st <- this ;;
  match _currentPath st with
  | None => ret tt
  | Some path =>
      assign (fun st => set_paths (push (_paths st) path) st) ;;
      assign (set_currentPath None)
  end.

(** In [undo] and [redo] the guard makes the array non-empty, so [pop]
    yields an element; the other branch of the match is never taken. *)
Definition undo : M unit :=
  st <- this ;;
  if negb (truthy (_currentPath st)) && (0 <? length (_paths st))%nat then
    match pop (_paths st) with
    | (Some path, rest) =>
        assign (set_paths rest) ;;
        assign (fun st => set_redoPaths (push (_redoPaths st) path) st) ;;
        on_scene (Scene_removeMesh path)
    | (None, _) => ret tt
    end
  else ret tt.

Definition redo : M unit :=
  st <- this ;;
  if negb (truthy (_currentPath st)) && (0 <? length (_redoPaths st))%nat then
    match pop (_redoPaths st) with
    | (Some path, rest) =>
        assign (set_redoPaths rest) ;;
        assign (fun st => set_paths (push (_paths st) path) st) ;;
        on_scene (Scene_addMesh path)
    | (None, _) => ret tt
    end
  else ret tt.

(** [while (path = this._paths.pop()) { path.dispose(); }]: every mesh
    reference is truthy, so the loop ends when [pop] finds the array
    empty.  It is recursion on the length of the array. *)
Equations? clear_loop (st : InkCanvas) (sc : Scene) : InkCanvas * Scene
  by wf (length (_paths st)) lt :=
clear_loop st sc with inspect (pop (_paths st)) := {
  | @exist (Some path, rest) e =>
      clear_loop (set_paths rest st) (Mesh_dispose path sc);
  | @exist (None, rest) e => (set_paths rest st, sc) }.
Proof.
  match goal with E : last _ = Some _ |- _ => apply last_Some in E as [l' ->] end.
  rewrite removelast_last, length_app. simpl. lia.
Qed.

Definition clear : M unit :=
  st <- this ;;
  if negb (truthy (_currentPath st)) && (0 <? length (_paths st))%nat then
    fun st sc => let '(st', sc') := clear_loop st sc in (Normal tt, st', sc')
  else ret tt.

Definition usePen : M unit :=
  assign (set_currentMode pen).

Definition changeSize (size : Q) : M unit :=
  assign (set_currentSize size).

Definition changeColor (color : Color3.t) : M unit :=
  assign (set_currentColor color) ;;
  usePen.

End Canvas.

(** ** Runs of the canvas

    The page script drives the canvas from pointer, keyboard and button
    events; between two calls the host may move the pointer. *)
Inductive Op :=
| OpStartPath
| OpExtendPath
| OpEndPath
| OpUndo
| OpRedo
| OpClear
| OpChangeSize (size : Q)
| OpChangeColor (color : Color3.t)
| OpUsePen
| OpPointer (px py : Q).

(** The kinds of pointer event the host library reports. *)
Inductive PointerEventTypes :=
| POINTERDOWN
| POINTERUP
| POINTERMOVE
| POINTERWHEEL
| POINTERPICK
| POINTERTAP
| POINTERDOUBLETAP.

Section Runs.
Context `{Host}.

(** The canvas and the scene as a call leaves them, whether it returned or
    threw. *)
Definition after {A} (m : M A) (s : InkCanvas * Scene) : InkCanvas * Scene :=
  let '(st, sc) := s in
  let '(_, st', sc') := m st sc in (st', sc').

Definition run_op (op : Op) (s : InkCanvas * Scene) : InkCanvas * Scene :=
  match op with
  | OpStartPath => after startPath s
  | OpExtendPath => after extendPath s
  | OpEndPath => after endPath s
  | OpUndo => after undo s
  | OpRedo => after redo s
  | OpClear => after clear s
  | OpChangeSize size => after (changeSize size) s
  | OpChangeColor color => after (changeColor color) s
  | OpUsePen => after usePen s
  | OpPointer px py => (fst s, set_pointer px py (snd s))
  end.

Definition run (ops : list Op) (s : InkCanvas * Scene) : InkCanvas * Scene :=
  foldl (fun s op => run_op op s) s ops.

(** The states a canvas can be in: it is constructed on a scene that holds
    no mesh yet, and then driven by any sequence of calls. *)
Inductive reachable : InkCanvas * Scene -> Prop :=
| reachable_new px py debug :
    reachable (new_InkCanvas (mkScene px py [] []) debug)
| reachable_op op s :
    reachable s -> reachable (run_op op s).

(** The strokes the canvas holds a reference to: the two lists and the
    path in progress. *)
Definition held (st : InkCanvas) : list MeshId :=
  _paths st ++ _redoPaths st ++ option_list (_currentPath st).

(** The shape of the object store and of the references into it.  The
    drawing plane is object 0 and every other object is a path mesh that is
    not pickable; the canvas holds every stroke at most once, and only
    strokes that exist. *)
Record consistent (st : InkCanvas) (sc : Scene) : Prop := mkConsistent {
  plane_first : exists m, objects sc !! 0%nat = Some m /\ is_path m = false;
  paths_rest : forall i m, objects sc !! S i = Some m ->
                 is_path m = true /\ isPickable m = false;
  held_exist : forall i, i ∈ held st -> (0 < i < length (objects sc))%nat;
  held_once : NoDup (held st)
}.

(** The options [_createPath] builds from the brush settings. *)
Definition path_options (st : InkCanvas) : PathBufferDataOptions :=
  if _debug st
  then mkOptions (Some (_currentSize st * _sizeScaleFactor st)%Q) (Some 1%Q) (Some 8%Q)
  else mkOptions (Some (_currentSize st * _sizeScaleFactor st)%Q) None None.

(** The material [_createPathMaterial] builds from the brush settings. *)
Definition path_material (st : InkCanvas) : Material :=
  if _debug st then
    set_backFaceCulling false (createDebugMaterial "debugMaterial")
  else if (_currentMode st =? pen)%N then
    set_backFaceCulling false (createSimpleMaterial "pathMaterial" (_currentColor st))
  else set_backFaceCulling false (createRainbowMaterial "pathMaterial").

(** The mesh that a successful [startPath] leaves in the store. *)
Definition started_path (st : InkCanvas) (info : PickingInfo)
    (localCoordinates : Vector3.t) : Mesh :=
  mkMesh
    (Path "path" (Vector3.x localCoordinates, Vector3.y localCoordinates)
          (path_options st) [])
    (Some (freeze (path_material st)))
    (Some (pickedMesh info)) 2 false true true false.

(** *** The pointer observer of the page script

    The observer the page registers on [onPointerObservable] looks at the
    type of the event only: down starts a path, move extends it, up ends
    it, and any other event is ignored. *)
Definition onPointer (type : PointerEventTypes) : M unit :=
  match type with
  | POINTERDOWN => bind startPath (fun _ => ret tt)
  | POINTERMOVE => bind extendPath (fun _ => ret tt)
  | POINTERUP => endPath
  | _ => ret tt
  end.

(** A pointer event reaches the observer after the host has moved the
    pointer of the scene to where the event happened. *)
Definition deliver (e : PointerEventTypes * Q * Q)
    (s : InkCanvas * Scene) : InkCanvas * Scene :=
  let '(type, px, py) := e in
  after (onPointer type) (fst s, set_pointer px py (snd s)).

Definition deliver_all (es : list (PointerEventTypes * Q * Q))
    (s : InkCanvas * Scene) : InkCanvas * Scene :=
  foldl (fun s e => deliver e s) s es.

(** One gesture: the pointer goes down, moves along some positions, and
    goes up. *)
Definition gesture (down : Q * Q) (moves : list (Q * Q)) (up : Q * Q)
    : list (PointerEventTypes * Q * Q) :=
  (POINTERDOWN, fst down, snd down)
    :: map (fun p => (POINTERMOVE, fst p, snd p)) moves
    ++ [(POINTERUP, fst up, snd up)].

(** *** What one call can do to the lists and to the scene

    Seen through the two lists, the path in progress, the object store and
    the requests made to the scene, a call does one of eight things. *)
Inductive transition : InkCanvas * Scene -> InkCanvas * Scene -> Prop :=
| quiet st sc st' sc' :
    _paths st' = _paths st -> _redoPaths st' = _redoPaths st ->
    _currentPath st' = _currentPath st ->
    objects sc' = objects sc -> calls sc' = calls sc ->
    transition (st, sc) (st', sc')
| redo_dropped st sc st' sc' :
    _currentPath st = None ->
    _paths st' = _paths st -> _redoPaths st' = [] -> _currentPath st' = None ->
    objects sc' = objects sc -> calls sc' = calls sc ->
    transition (st, sc) (st', sc')
| started st sc st' sc' m :
    _currentPath st = None ->
    _paths st' = _paths st -> _redoPaths st' = [] ->
    _currentPath st' = Some (length (objects sc)) ->
    objects sc' = objects sc ++ [m] ->
    is_path m = true -> isPickable m = false -> isDisposed m = false ->
    calls sc' = calls sc ->
    transition (st, sc) (st', sc')
| extended st sc st' sc' path point :
    _currentPath st = Some path ->
    _paths st' = _paths st -> _redoPaths st' = _redoPaths st ->
    _currentPath st' = Some path ->
    objects sc' = alter (add_point point) path (objects sc) ->
    calls sc' = calls sc ->
    transition (st, sc) (st', sc')
| committed st sc st' sc' path :
    _currentPath st = Some path ->
    _paths st' = _paths st ++ [path] -> _redoPaths st' = _redoPaths st ->
    _currentPath st' = None ->
    objects sc' = objects sc -> calls sc' = calls sc ->
    transition (st, sc) (st', sc')
| undone st sc st' sc' path :
    _currentPath st = None ->
    _paths st = _paths st' ++ [path] ->
    _redoPaths st' = _redoPaths st ++ [path] ->
    _currentPath st' = None ->
    objects sc' = objects sc -> calls sc' = calls sc ++ [removeMesh path] ->
    transition (st, sc) (st', sc')
| redone st sc st' sc' path :
    _currentPath st = None ->
    _redoPaths st = _redoPaths st' ++ [path] ->
    _paths st' = _paths st ++ [path] ->
    _currentPath st' = None ->
    objects sc' = objects sc -> calls sc' = calls sc ++ [addMesh path] ->
    transition (st, sc) (st', sc')
| cleared st sc st' sc' :
    _currentPath st = None ->
    _paths st' = [] -> _redoPaths st' = _redoPaths st ->
    _currentPath st' = None ->
    objects sc' = objects (dispose_all (rev (_paths st)) sc) ->
    calls sc' = calls sc ++ map dispose (rev (_paths st)) ->
    transition (st, sc) (st', sc').

(** The strokes in the order they were committed, the undone ones
    included: the undo list followed by the redo list read backwards. *)
Definition timeline (st : InkCanvas) : list MeshId :=
  _paths st ++ rev (_redoPaths st).

(** The requests a call makes to the scene, read off the canvas it is
    made on. *)
Definition requests (op : Op) (st : InkCanvas) : list SceneCall :=
  match _currentPath st with
  | Some _ => []
  | None =>
      match op with
      | OpUndo =>
          match last (_paths st) with Some path => [removeMesh path] | None => [] end
      | OpRedo =>
          match last (_redoPaths st) with Some path => [addMesh path] | None => [] end
      | OpClear => map dispose (rev (_paths st))
      | _ => []
      end
  end.

Definition is_undo_or_redo (op : Op) : bool :=
  match op with OpUndo | OpRedo => true | _ => false end.

(** The mesh a request is about. *)
Definition call_mesh (c : SceneCall) : MeshId :=
  match c with removeMesh m | addMesh m | dispose m => m end.

(** The canvas and the scene agree on every stroke the canvas holds: the
    mesh is alive; it is in the scene when it is on the undo list or in
    progress, and out of the scene when it is on the redo list.  No
    request was ever about a mesh that does not exist. *)
Record in_step (st : InkCanvas) (sc : Scene) : Prop := mkInStep {
  calls_exist : forall c, c ∈ calls sc -> (call_mesh c < length (objects sc))%nat;
  held_alive : forall i, i ∈ held st ->
                 exists m, objects sc !! i = Some m /\ isDisposed m = false;
  shown : forall i, i ∈ _paths st ++ option_list (_currentPath st) ->
            attached (calls sc) i = true;
  hidden : forall i, i ∈ _redoPaths st -> attached (calls sc) i = false
}.

(** References are handed out in the order the meshes are created, so a
    smaller reference is an older stroke.  The strokes are held oldest
    first: the timeline, and after it the path in progress; and nothing is
    on the redo list while a path is in progress. *)
Record in_order (st : InkCanvas) : Prop := mkInOrder {
  by_age : StronglySorted lt (timeline st ++ option_list (_currentPath st));
  no_redo_while_drawing : is_Some (_currentPath st) -> _redoPaths st = []
}.


(** The scene's [pick] only returns meshes that are pickable: the default
    predicate of the host library skips a mesh whose [isPickable] is off. *)
Definition pick_honours_isPickable : Prop :=
  forall sc px py info,
    pick sc px py = Some info -> hit info = true ->
    exists m, objects sc !! pickedMesh info = Some m /\ isPickable m = true.

End Runs.

(** Modelled from the spec: the constructor of [PathMesh]
    ([./path/pathMesh], with [./path/pathBufferData]) is not among the
    sources.  The spec has stroke creation fail with
    [InvalidBrushParameter] on a non-positive radius or a negative
    roundness or debounce; a member left out of the options takes its
    default and is accepted. *)
Definition PathMesh_accepts_spec (options : PathBufferDataOptions) : bool :=
  match radius options with
  | Some r => negb (Qle_bool r 0)
  | None => true
  end
  && match roundness options with
     | Some n => Qle_bool 0 n
     | None => true
     end
  && match debounce options with
     | Some d => Qle_bool 0 d
     | None => true
     end.

(** ** A small host to run the canvas on

    Matrices are translations; the pointer is over the canvas when both
    coordinates lie in [0, 1], and the ray then meets the first pickable
    mesh of the scene, if there is one. *)
Definition demo_pick (sc : Scene) (px py : Q) : option PickingInfo :=
  if Qle_bool 0 px && Qle_bool px 1 && Qle_bool 0 py && Qle_bool py 1 then
    match list_find (fun m => Is_true (isPickable m)) (objects sc) with
    | Some (i, _) => Some (mkPickingInfo true i (Vector3.mk px py 0))
    | None => Some (mkPickingInfo false 0 (Vector3.mk 0 0 0))
    end
  else Some (mkPickingInfo false 0 (Vector3.mk 0 0 0)).

Definition demo_host : Host := {|
  Matrix := Vector3.t;
  Matrix_new := Vector3.mk 0 0 0;
  getWorldMatrix := fun _ _ => Vector3.mk 0 0 0;
  invert := fun m =>
    Vector3.mk (- Vector3.x m) (- Vector3.y m) (- Vector3.z m);
  TransformCoordinates := fun v m =>
    Vector3.mk (Vector3.x v + Vector3.x m) (Vector3.y v + Vector3.y m)
               (Vector3.z v + Vector3.z m);
  pick := demo_pick;
  PathMesh_accepts := PathMesh_accepts_spec
|}.

(** A fresh canvas with the pointer over the drawing plane, and the same
    canvas after two strokes have been drawn and completed. *)
Definition demo_start : InkCanvas * Scene :=
  @new_InkCanvas demo_host (mkScene (1 # 2) (1 # 2) [] []) false.

Definition demo_two_strokes : InkCanvas * Scene :=
  @run demo_host
    [OpStartPath; OpExtendPath; OpEndPath; OpStartPath; OpEndPath] demo_start.

(** One of the two strokes undone; the same with the pointer moved off
    the canvas; the same with the brush size set to zero; and the canvas
    with a third stroke in progress. *)
Definition demo_undone : InkCanvas * Scene :=
  @run demo_host [OpUndo] demo_two_strokes.

Definition demo_off_canvas : InkCanvas * Scene :=
  @run demo_host [OpPointer 2 2] demo_undone.

Definition demo_zero_size : InkCanvas * Scene :=
  @run demo_host [OpChangeSize 0] demo_undone.

Definition demo_drawing : InkCanvas * Scene :=
  @run demo_host [OpStartPath] demo_two_strokes.

(** * Properties *)

(** ** Arrays *)

Lemma pop_push {A} (l : list A) (a : A) : pop (push l a) = (Some a, l).
Proof. unfold pop, push. by rewrite last_snoc, removelast_last. Qed.

Lemma pop_nil {A} : pop (@nil A) = (None, []).
Proof. reflexivity. Qed.

Lemma pop_Some {A} (l rest : list A) (a : A) :
  pop l = (Some a, rest) -> l = push rest a.
Proof.
  unfold pop, push. intros [= Hlast <-].
  apply last_Some in Hlast as [l' ->]. by rewrite removelast_last.
Qed.

Lemma pop_None {A} (l rest : list A) : pop l = (None, rest) -> l = [] /\ rest = [].
Proof.
  unfold pop. intros [= Hlast <-]. apply last_None in Hlast as ->. done.
Qed.

Lemma push_length {A} (l : list A) (a : A) : length (push l a) = S (length l).
Proof. unfold push. rewrite length_app. simpl. lia. Qed.

(** ** The scene *)

Lemma attached_snoc_addMesh cs m : attached (cs ++ [addMesh m]) m = true.
Proof. unfold attached. rewrite foldl_app. simpl. by rewrite decide_True. Qed.

Lemma attached_snoc_removeMesh cs m : attached (cs ++ [removeMesh m]) m = false.
Proof. unfold attached. rewrite foldl_app. simpl. by rewrite decide_True. Qed.

Lemma dispose_all_calls l sc :
  calls (dispose_all l sc) = calls sc ++ map dispose l.
Proof.
  revert sc. induction l as [|path l IH]; intros sc; simpl.
  - by rewrite app_nil_r.
  - unfold dispose_all in *. simpl. rewrite IH. simpl.
    by rewrite <- app_assoc.
Qed.

Section Facts.
Context `{Host}.

Ltac method :=
  unfold bind, ret, throw, this, scene, assign, on_mesh, on_scene; simpl.

(** The loop of [clear] pops the whole array, last element first, and
    disposes each mesh it pops. *)
Lemma clear_loop_spec st sc :
  clear_loop st sc = (set_paths [] st, dispose_all (rev (_paths st)) sc).
Proof.
  funelim (clear_loop st sc).
  - match goal with IH : clear_loop _ _ = (_, _) |- _ => rewrite IH end.
    match goal with E : last _ = Some _ |- _ => apply last_Some in E as [l' Hl] end.
    simpl. rewrite Hl, removelast_last, rev_app_distr. reflexivity.
  - match goal with E : last _ = None |- _ => apply last_None in E as Hl end.
    by rewrite Hl.
Qed.

(** ** Starting a path *)

Lemma startPath_miss st sc :
  _currentPath st = None ->
  pick_hit (pick sc (pointerX sc) (pointerY sc)) = false ->
  startPath st sc = (Normal (JsBoolean false), set_redoPaths [] st, sc).
Proof.
  intros Hidle Hmiss. unfold startPath. method. rewrite Hidle. simpl.
  destruct (pick sc (pointerX sc) (pointerY sc)) as [info|]; [|done].
  simpl in Hmiss. by rewrite Hmiss.
Qed.

(** C1 (as the code has it).  In Idle, a [startPath] whose pick misses
    returns [false]; the undo list, the path in progress, the brush
    settings and the scene are as before, and the redo list is empty:
    the canvas is its old self with [_redoPaths] emptied, since the redo
    list is cleaned up before the pick. *)
Theorem startPath_miss_in_idle st sc :
  _currentPath st = None ->
  pick_hit (pick sc (pointerX sc) (pointerY sc)) = false ->
  startPath st sc = (Normal (JsBoolean false), set_redoPaths [] st, sc) /\
  _paths (set_redoPaths [] st) = _paths st /\
  _currentPath (set_redoPaths [] st) = None /\
  _redoPaths (set_redoPaths [] st) = [].
Proof. intros Hidle Hmiss. split; [by apply startPath_miss|done]. Qed.

(** C7, first half: with a path in progress, [startPath] returns at once
    and changes nothing, whatever the pick would say. *)
Lemma startPath_while_drawing st sc path :
  _currentPath st = Some path ->
  startPath st sc = (Normal undefined, st, sc).
Proof. intros Hcur. unfold startPath. method. by rewrite Hcur. Qed.

(** ** Undo, redo and clear *)

Lemma undo_idle st sc path rest :
  _currentPath st = None -> _paths st = push rest path ->
  undo st sc =
    (Normal tt,
     set_redoPaths (push (_redoPaths st) path) (set_paths rest st),
     Scene_removeMesh path sc).
Proof.
  intros Hidle Hpaths. unfold undo. method. rewrite Hidle, Hpaths.
  rewrite push_length. unfold push. rewrite last_snoc, removelast_last.
  reflexivity.
Qed.

Lemma redo_idle st sc path rest :
  _currentPath st = None -> _redoPaths st = push rest path ->
  redo st sc =
    (Normal tt,
     set_paths (push (_paths st) path) (set_redoPaths rest st),
     Scene_addMesh path sc).
Proof.
  intros Hidle Hredo. unfold redo. method. rewrite Hidle, Hredo.
  rewrite push_length. unfold push. rewrite last_snoc, removelast_last.
  reflexivity.
Qed.

Lemma undo_empty st sc : _paths st = [] -> undo st sc = (Normal tt, st, sc).
Proof.
  intros Hpaths. unfold undo. method. rewrite Hpaths. simpl.
  by rewrite andb_false_r.
Qed.

Lemma redo_empty st sc : _redoPaths st = [] -> redo st sc = (Normal tt, st, sc).
Proof.
  intros Hredo. unfold redo. method. rewrite Hredo. simpl.
  by rewrite andb_false_r.
Qed.

Lemma clear_idle st sc :
  _currentPath st = None ->
  clear st sc = (Normal tt, set_paths [] st, dispose_all (rev (_paths st)) sc).
Proof.
  intros Hidle. unfold clear. method. rewrite Hidle. simpl.
  destruct (_paths st) as [|p l] eqn:Hpaths; simpl.
  - destruct st; simpl in *; by subst.
  - by rewrite clear_loop_spec, Hpaths.
Qed.

Lemma undo_while_drawing st sc path :
  _currentPath st = Some path -> undo st sc = (Normal tt, st, sc).
Proof. intros Hcur. unfold undo. method. by rewrite Hcur. Qed.

Lemma redo_while_drawing st sc path :
  _currentPath st = Some path -> redo st sc = (Normal tt, st, sc).
Proof. intros Hcur. unfold redo. method. by rewrite Hcur. Qed.

Lemma clear_while_drawing st sc path :
  _currentPath st = Some path -> clear st sc = (Normal tt, st, sc).
Proof. intros Hcur. unfold clear. method. by rewrite Hcur. Qed.

(** C6.  With a path in progress, [undo], [redo] and [clear] return
    without touching the canvas or the scene: no array is popped, no
    request reaches the scene, and the object store, the path in progress
    included, is as before. *)
Theorem history_noop_while_drawing st sc path :
  _currentPath st = Some path ->
  undo st sc = (Normal tt, st, sc) /\
  redo st sc = (Normal tt, st, sc) /\
  clear st sc = (Normal tt, st, sc).
Proof.
  intros Hcur. split; [|split].
  - by apply undo_while_drawing with path.
  - by apply redo_while_drawing with path.
  - by apply clear_while_drawing with path.
Qed.

(** C3.  In Idle with [N > 0] strokes on the undo list, [clear] empties
    the undo list, issues exactly [N] requests, one [dispose] for each
    stroke in the order they are popped, and leaves the redo list as it
    was. *)
Theorem clear_disposes_every_stroke st sc N :
  _currentPath st = None ->
  length (_paths st) = N ->
  (0 < N)%nat ->
  exists st' sc',
    clear st sc = (Normal tt, st', sc') /\
    _paths st' = [] /\
    calls sc' = calls sc ++ map dispose (rev (_paths st)) /\
    length (map dispose (rev (_paths st))) = N /\
    _redoPaths st' = _redoPaths st.
Proof.
  intros Hidle Hlen _.
  exists (set_paths [] st), (dispose_all (rev (_paths st)) sc).
  split; [by apply clear_idle|].
  split; [done|]. split; [apply dispose_all_calls|].
  split; [|done]. by rewrite length_map, length_rev.
Qed.

(** C4.  After [endPath] has committed the path in progress, [undo]
    followed by [redo] brings the canvas back to the very state [endPath]
    left: the same reference is on top of the undo list, both lists have
    their sizes of before, the object store (the geometry) is untouched,
    and the scene was asked to remove and then to add that same mesh, so
    that it is attached again. *)
Theorem endPath_undo_redo_roundtrip st sc path :
  _currentPath st = Some path ->
  let s1 := after endPath (st, sc) in
  let s3 := after redo (after undo s1) in
  fst s3 = fst s1 /\
  last (_paths (fst s3)) = Some path /\
  length (_paths (fst s3)) = length (_paths (fst s1)) /\
  length (_redoPaths (fst s3)) = length (_redoPaths (fst s1)) /\
  objects (snd s3) = objects (snd s1) /\
  calls (snd s3) = calls (snd s1) ++ [removeMesh path; addMesh path] /\
  attached (calls (snd s3)) path = true.
Proof.
  intros Hcur s1 s3.
  assert (Hs1 : s1 = (set_currentPath None (set_paths (push (_paths st) path) st), sc)).
  { unfold s1, after, endPath. method. by rewrite Hcur. }
  assert (Hs3 : s3 = (fst s1, Scene_addMesh path (Scene_removeMesh path sc))).
  { unfold s3. rewrite Hs1. unfold after at 2. simpl.
    erewrite undo_idle; [|done..]. unfold after. simpl.
    erewrite redo_idle; [|done..]. reflexivity. }
  rewrite Hs3, Hs1. simpl. repeat split.
  - unfold push. apply last_snoc.
  - by rewrite <- app_assoc.
  - replace (calls sc ++ [removeMesh path]) with (calls sc ++ [removeMesh path] ++ []) by done.
    rewrite app_assoc. apply attached_snoc_addMesh.
Qed.

(** C2 (as the code has it).  From Idle with the two strokes [a] and [b]
    on the undo list, [a] the first-created and [b] the second-created,
    and an empty redo list, [undo(); undo(); redo()] leaves one stroke on
    each list, and the stroke that [redo] hands back to the scene is [a],
    the one undone last: the first-created stroke.  The second-created
    stroke [b] stays on the redo list. *)
Theorem undo_undo_redo_two_strokes st sc a b :
  _currentPath st = None ->
  _paths st = [a; b] ->
  _redoPaths st = [] ->
  (a < b)%nat ->
  let s3 := after redo (after undo (after undo (st, sc))) in
  _paths (fst s3) = [a] /\
  _redoPaths (fst s3) = [b] /\
  length (_paths (fst s3)) = 1%nat /\
  length (_redoPaths (fst s3)) = 1%nat /\
  calls (snd s3) = calls sc ++ [removeMesh b; removeMesh a; addMesh a] /\
  last (calls (snd s3)) = Some (addMesh a).
Proof.
  intros Hidle Hpaths Hredo _ s3.
  assert (Hs3 : s3 =
    (set_paths [a] (set_redoPaths [b] st),
     Scene_addMesh a (Scene_removeMesh a (Scene_removeMesh b sc)))).
  { unfold s3, after. simpl.
    rewrite (undo_idle st sc b [a]); [|done..]. simpl.
    erewrite (undo_idle _ _ a []); [|done..]. simpl.
    erewrite (redo_idle _ _ a [b]); [|done|simpl; by rewrite Hredo]. simpl.
    destruct st; simpl in *; subst; reflexivity. }
  rewrite Hs3. simpl. repeat split.
  - by rewrite <- !app_assoc.
  - apply last_snoc.
Qed.

(** ** Brush settings *)

(** C9.  [changeColor] stores the colour and then calls [usePen]: on
    every call the mode is [pen] afterwards, whatever it was before, and
    nothing else changes. *)
Theorem changeColor_resets_mode st sc color :
  changeColor color st sc =
    (Normal tt, set_currentMode pen (set_currentColor color st), sc) /\
  _currentColor (set_currentMode pen (set_currentColor color st)) = color /\
  _currentMode (set_currentMode pen (set_currentColor color st)) = pen.
Proof. done. Qed.

(** Had the canvas been in another mode, say mode number 1, a change of
    colour would have put it back into pen mode. *)
Example changeColor_discards_other_mode st sc color :
  _currentMode (set_currentMode 1%N st) <> pen /\
  _currentMode (fst (after (changeColor color) (set_currentMode 1%N st, sc))) = pen.
Proof. split; [discriminate|reflexivity]. Qed.

(** ** Extending a path *)

Lemma extendPath_in_idle st sc :
  _currentPath st = None -> extendPath st sc = (Normal undefined, st, sc).
Proof. intros Hidle. unfold extendPath. method. by rewrite Hidle. Qed.

(** A miss while drawing is skipped: [false] comes back and neither the
    canvas nor the scene, the path in progress included, has changed. *)
Lemma extendPath_miss st sc path :
  _currentPath st = Some path ->
  pick_hit (pick sc (pointerX sc) (pointerY sc)) = false ->
  extendPath st sc = (Normal (JsBoolean false), st, sc).
Proof.
  intros Hcur Hmiss. unfold extendPath. method. rewrite Hcur.
  destruct (pick sc (pointerX sc) (pointerY sc)) as [info|]; [|done].
  simpl in Hmiss. by rewrite Hmiss.
Qed.

(** A hit while drawing hands the picked point, in the coordinates of the
    picked mesh, to [addPointToPath] of the path in progress, and [true]
    comes back. *)
Lemma extendPath_hit st sc path info :
  _currentPath st = Some path ->
  pick sc (pointerX sc) (pointerY sc) = Some info ->
  hit info = true ->
  let m := invert (getWorldMatrix sc (pickedMesh info)) in
  let localCoordinates := TransformCoordinates (pickedPoint info) m in
  extendPath st sc =
    (Normal (JsBoolean true),
     set_invertedWorldMatrix m st,
     update_object path
       (add_point (Vector3.x localCoordinates, Vector3.y localCoordinates)) sc).
Proof.
  intros Hcur Hpick Hhit. unfold extendPath, addPointToPath. method.
  by rewrite Hcur, Hpick, Hhit.
Qed.

(** ** Creating a path *)

Lemma _createPath_accepted x y st sc :
  PathMesh_accepts (path_options st) = true ->
  _createPath x y st sc =
    (Normal (length (objects sc)), st,
     add_object
       (mkMesh (Path "path" (x, y) (path_options st) []) None None 0
               true false false false) sc).
Proof.
  intros Hacc. unfold _createPath, PathMesh_new, path_options in *. method.
  destruct (_debug st); simpl in *; by rewrite Hacc.
Qed.

Lemma _createPath_rejected x y st sc :
  PathMesh_accepts (path_options st) = false ->
  _createPath x y st sc = (Throw InvalidBrushParameter, st, sc).
Proof.
  intros Hacc. unfold _createPath, PathMesh_new, path_options in *. method.
  destruct (_debug st); simpl in *; by rewrite Hacc.
Qed.

Lemma _createPathMaterial_spec st sc :
  _createPathMaterial st sc = (Normal (path_material st), st, sc).
Proof.
  unfold _createPathMaterial, path_material. method.
  destruct (_debug st); [done|]. by destruct (_currentMode st =? pen)%N.
Qed.

Lemma update_new_object f m sc :
  update_object (length (objects sc)) f (add_object m sc) = add_object (f m) sc.
Proof.
  unfold update_object, add_object, set_objects. simpl. f_equal.
  replace (length (objects sc)) with (length (objects sc) + 0)%nat by lia.
  by rewrite alter_app_r.
Qed.

(** In Idle, on a hit, when the constructor of [PathMesh] accepts the
    options: the redo list is emptied, the new mesh is the path in
    progress, and it sits in the store with its material, its parent and
    the flags of the "Quick Optim" block, [isPickable] off among them. *)
Lemma startPath_hit st sc info :
  _currentPath st = None ->
  pick sc (pointerX sc) (pointerY sc) = Some info ->
  hit info = true ->
  PathMesh_accepts (path_options st) = true ->
  let m := invert (getWorldMatrix sc (pickedMesh info)) in
  startPath st sc =
    (Normal (JsBoolean true),
     set_currentPath (Some (length (objects sc)))
       (set_invertedWorldMatrix m (set_redoPaths [] st)),
     add_object
       (started_path st info (TransformCoordinates (pickedPoint info) m)) sc).
Proof.
  intros Hidle Hpick Hhit Hacc m. unfold startPath.
  unfold bind at 1. unfold this at 1. rewrite Hidle.
  unfold bind at 1. unfold assign at 1.
  unfold bind at 1. unfold scene at 1. rewrite Hpick, Hhit.
  unfold bind at 1. unfold assign at 1.
  unfold bind at 1. unfold this at 1.
  unfold bind at 1. rewrite _createPath_accepted by done.
  unfold bind at 1. unfold assign at 1.
  unfold bind at 1. rewrite _createPathMaterial_spec.
  method. f_equal.
  rewrite !update_new_object. reflexivity.
Qed.

(** In Idle, on a hit, when the constructor of [PathMesh] throws: the
    exception leaves [startPath]; by then the redo list has been emptied
    and the inverted matrix written, and nothing else has happened. *)
Lemma startPath_hit_rejected st sc info :
  _currentPath st = None ->
  pick sc (pointerX sc) (pointerY sc) = Some info ->
  hit info = true ->
  PathMesh_accepts (path_options st) = false ->
  startPath st sc =
    (Throw InvalidBrushParameter,
     set_invertedWorldMatrix (invert (getWorldMatrix sc (pickedMesh info)))
       (set_redoPaths [] st),
     sc).
Proof.
  intros Hidle Hpick Hhit Hacc. unfold startPath.
  unfold bind at 1. unfold this at 1. rewrite Hidle.
  unfold bind at 1. unfold assign at 1.
  unfold bind at 1. unfold scene at 1. rewrite Hpick, Hhit.
  unfold bind at 1. unfold assign at 1.
  unfold bind at 1. unfold this at 1.
  unfold bind at 1. rewrite _createPath_rejected by done.
  reflexivity.
Qed.

(** ** Consistency of the canvas with the scene *)

Lemma consistent_objects st sc sc' :
  objects sc' = objects sc -> consistent st sc -> consistent st sc'.
Proof. intros Heq [? ? ? ?]. split; rewrite ?Heq; auto. Qed.

Lemma consistent_held st st' sc :
  NoDup (held st') ->
  (forall i, i ∈ held st' -> i ∈ held st) ->
  consistent st sc -> consistent st' sc.
Proof. intros Hnd Hsub [? ? ? ?]. split; auto. Qed.

(** Writing a field of an object that is neither its geometry kind nor
    [isPickable] keeps the store in shape. *)
Lemma consistent_update st sc i f :
  (forall m, is_path (f m) = is_path m /\ isPickable (f m) = isPickable m) ->
  consistent st sc -> consistent st (update_object i f sc).
Proof.
  intros Hf [[m0 [Hm0 Hplane]] Hrest Hex Hnd]. split; simpl; auto.
  - destruct (decide (i = 0%nat)) as [->|Hne].
    + exists (f m0). rewrite list_lookup_alter_eq, Hm0. simpl.
      split; [done|]. by rewrite (proj1 (Hf m0)).
    + exists m0. by rewrite list_lookup_alter_ne.
  - intros j m Hj. destruct (decide (i = S j)) as [->|Hne].
    + rewrite list_lookup_alter_eq in Hj.
      destruct (objects sc !! S j) as [m'|] eqn:Hm'; [|done].
      injection Hj as <-. destruct (Hrest j m' Hm') as [? ?].
      destruct (Hf m') as [-> ->]. done.
    + rewrite list_lookup_alter_ne in Hj by done. eauto.
  - intros j Hj. rewrite length_alter. auto.
Qed.

Lemma set_isDisposed_keeps v m :
  is_path (set_isDisposed v m) = is_path m /\
  isPickable (set_isDisposed v m) = isPickable m.
Proof. done. Qed.

Lemma add_point_keeps p m :
  is_path (add_point p m) = is_path m /\ isPickable (add_point p m) = isPickable m.
Proof.
  unfold add_point, is_path. destruct (geometry m) eqn:Hg; simpl; by rewrite ?Hg.
Qed.

Lemma consistent_dispose_all st sc l :
  consistent st sc -> consistent st (dispose_all l sc).
Proof.
  revert sc. induction l as [|path l IH]; intros sc Hc; [done|].
  unfold dispose_all in *. simpl. apply IH. unfold Mesh_dispose.
  eapply consistent_objects; [|apply consistent_update; [apply set_isDisposed_keeps|done]].
  done.
Qed.

(** A path mesh that enters the store unpickable may become the path in
    progress of an idle canvas. *)
Lemma consistent_started st sc st' m :
  is_path m = true -> isPickable m = false ->
  held st' = _paths st ++ [length (objects sc)] ->
  consistent st sc -> consistent st' (add_object m sc).
Proof.
  intros Hpath Hpick Hheld [[m0 [Hm0 Hplane]] Hrest Hex Hnd].
  assert (Hlen : (0 < length (objects sc))%nat) by (by apply lookup_lt_Some in Hm0).
  assert (Hin : forall i, i ∈ _paths st -> i ∈ held st).
  { intros i Hi. unfold held. apply elem_of_app. by left. }
  split; simpl.
  - exists m0. by rewrite lookup_app_l.
  - intros i m' Hi. apply lookup_app_Some in Hi as [Hi|[Hge Hi]]; [eauto|].
    apply list_lookup_singleton_Some in Hi as [_ <-]. done.
  - intros i. rewrite Hheld, length_app. simpl.
    intros [Hi| ->%list_elem_of_singleton]%elem_of_app; [|lia].
    apply Hin, Hex in Hi. lia.
  - rewrite Hheld. apply NoDup_app. split; [|split].
    + unfold held in Hnd. by apply NoDup_app in Hnd as [? _].
    + intros i Hi ->%list_elem_of_singleton. apply Hin, Hex in Hi. lia.
    + apply NoDup_singleton.
Qed.

Lemma consistent_new px py debug :
  consistent (fst (new_InkCanvas (mkScene px py [] []) debug))
             (snd (new_InkCanvas (mkScene px py [] []) debug)).
Proof.
  split; simpl.
  - eexists. split; [reflexivity|done].
  - intros i m Hi. done.
  - intros i Hi. by apply elem_of_nil in Hi.
  - apply NoDup_nil_2.
Qed.

Ltac held_solver :=
  unfold held, push in *; simpl in *;
  repeat match goal with
         | E : ?x = _, Hn : NoDup ?l |- _ =>
             lazymatch l with context [x] => rewrite E in Hn end
         | E : ?x = _ |- context [?x] => rewrite E
         end;
  simpl in *;
  repeat match goal with
         | Hn : NoDup _ |- _ =>
             rewrite ?NoDup_app, ?NoDup_cons, ?NoDup_nil in Hn;
             destruct Hn as [? ?]
         end;
  rewrite ?NoDup_app, ?NoDup_cons, ?NoDup_nil;
  set_unfold; destruct_and?; repeat split; try done; intros; destruct_or?;
  subst; try done; firstorder.

(** Every call, and every move of the pointer, keeps the canvas
    consistent with the scene. *)
Lemma consistent_run_op op s :
  consistent (fst s) (snd s) ->
  consistent (fst (run_op op s)) (snd (run_op op s)).
Proof.
  destruct s as [st sc]. simpl. intros Hc.
  pose proof (held_once _ _ Hc) as Hnd.
  destruct op; simpl; unfold after; simpl.
  - (* startPath *)
    destruct (_currentPath st) as [path|] eqn:Hcur.
    { by rewrite (startPath_while_drawing _ _ path). }
    destruct (pick_hit (pick sc (pointerX sc) (pointerY sc))) eqn:Hpick.
    + destruct (pick sc (pointerX sc) (pointerY sc)) as [info|] eqn:Hinfo; [|done].
      simpl in Hpick.
      destruct (PathMesh_accepts (path_options st)) eqn:Hacc.
      * rewrite (startPath_hit _ _ info) by done. simpl.
        eapply consistent_started; [done..| |done].
        reflexivity.
      * rewrite (startPath_hit_rejected _ _ info) by done. simpl.
        eapply consistent_held; [| |done]; held_solver.
    + rewrite startPath_miss by done. simpl.
      eapply consistent_held; [| |done]; held_solver.
  - (* extendPath *)
    destruct (_currentPath st) as [path|] eqn:Hcur.
    2: { by rewrite extendPath_in_idle. }
    destruct (pick_hit (pick sc (pointerX sc) (pointerY sc))) eqn:Hpick.
    + destruct (pick sc (pointerX sc) (pointerY sc)) as [info|] eqn:Hinfo; [|done].
      simpl in Hpick. rewrite (extendPath_hit _ _ path info) by done. simpl.
      apply consistent_update; [apply add_point_keeps|].
      eapply consistent_held; [| |done]; held_solver.
    + by rewrite (extendPath_miss _ _ path).
  - (* endPath *)
    unfold endPath. method.
    destruct (_currentPath st) as [path|] eqn:Hcur; simpl; [|done].
    eapply consistent_held; [| |done]; held_solver.
  - (* undo *)
    destruct (_currentPath st) as [path|] eqn:Hcur.
    { by rewrite (undo_while_drawing _ _ path). }
    destruct (decide (_paths st = [])) as [Hnil|Hne].
    { rewrite (undo_empty st sc Hnil). exact Hc. }
    apply exists_last in Hne as (l & p & Hpaths).
    rewrite (undo_idle _ _ p l) by done. simpl.
    apply (consistent_objects _ sc); [done|].
    eapply consistent_held; [| |done]; held_solver.
  - (* redo *)
    destruct (_currentPath st) as [path|] eqn:Hcur.
    { by rewrite (redo_while_drawing _ _ path). }
    destruct (decide (_redoPaths st = [])) as [Hnil|Hne].
    { rewrite (redo_empty st sc Hnil). exact Hc. }
    apply exists_last in Hne as (l & p & Hredo).
    rewrite (redo_idle _ _ p l) by done. simpl.
    apply (consistent_objects _ sc); [done|].
    eapply consistent_held; [| |done]; held_solver.
  - (* clear *)
    destruct (_currentPath st) as [path|] eqn:Hcur.
    { by rewrite (clear_while_drawing _ _ path). }
    rewrite clear_idle by done. simpl.
    apply consistent_dispose_all.
    eapply consistent_held; [| |done]; held_solver.
  - (* changeSize *)
    eapply consistent_held; [| |done]; held_solver.
  - (* changeColor *)
    eapply consistent_held; [| |done]; held_solver.
  - (* usePen *)
    eapply consistent_held; [| |done]; held_solver.
  - (* the pointer moves *)
    by apply (consistent_objects _ sc).
Qed.

Lemma reachable_consistent s : reachable s -> consistent (fst s) (snd s).
Proof.
  induction 1 as [px py debug|op s _ IH].
  - apply consistent_new.
  - by apply consistent_run_op.
Qed.

Lemma reachable_run ops s : reachable s -> reachable (run ops s).
Proof.
  revert s. induction ops as [|op ops IH]; intros s Hs; [done|].
  simpl. apply IH. by constructor.
Qed.

(** C7.  With a path in progress, a second [startPath] returns at once:
    the canvas and the scene are unchanged, so no mesh is created.  The
    canvas has room for one path in progress only, and in every state it
    can reach, that path is on neither list and no stroke is held
    twice. *)
Theorem startPath_noop_while_drawing s path :
  let st := fst s in
  let sc := snd s in
  _currentPath st = Some path ->
  startPath st sc = (Normal undefined, st, sc) /\
  (length (option_list (_currentPath st)) <= 1)%nat /\
  (reachable s ->
   (path ∉ _paths st) /\ (path ∉ _redoPaths st) /\ NoDup (held st)).
Proof.
  intros st sc Hcur. subst st sc.
  split; [by apply startPath_while_drawing with path|].
  split; [by rewrite Hcur|].
  intros Hreach. apply reachable_consistent in Hreach as [_ _ _ Hnd].
  simpl in Hnd. split; [|split]; [| |done].
  all: unfold held in Hnd; rewrite Hcur in Hnd; simpl in Hnd.
  all: rewrite !NoDup_app in Hnd; set_unfold; firstorder.
Qed.

(** ** Picking *)

(** When [startPath] returns [true], the mesh it created is the path in
    progress and is already not pickable. *)
Lemma startPath_true_unpickable st sc st' sc' :
  startPath st sc = (Normal (JsBoolean true), st', sc') ->
  exists path m,
    _currentPath st' = Some path /\ objects sc' !! path = Some m /\
    path = length (objects sc) /\ is_path m = true /\ isPickable m = false.
Proof.
  intros Hstart.
  destruct (_currentPath st) as [path|] eqn:Hcur.
  { by rewrite (startPath_while_drawing _ _ path) in Hstart. }
  destruct (pick_hit (pick sc (pointerX sc) (pointerY sc))) eqn:Hpick.
  2: { by rewrite startPath_miss in Hstart. }
  destruct (pick sc (pointerX sc) (pointerY sc)) as [info|] eqn:Hinfo; [|done].
  simpl in Hpick.
  destruct (PathMesh_accepts (path_options st)) eqn:Hacc.
  2: { by rewrite (startPath_hit_rejected _ _ info) in Hstart. }
  rewrite (startPath_hit _ _ info) in Hstart by done.
  injection Hstart as <- <-. eexists _, _. simpl.
  split; [done|]. split; [apply list_lookup_middle; done|]. done.
Qed.

(** C10.  Provided the scene's [pick] honours [isPickable]: a
    [startPath] that returns [true] leaves its new mesh not pickable; in
    every state the canvas can reach, no path mesh of the scene is
    pickable, and the pick that the next [startPath] or [extendPath]
    performs, if it hits, hits object 0, the drawing plane, which is not a
    path mesh. *)
Theorem picks_never_hit_a_stroke s :
  pick_honours_isPickable ->
  reachable s ->
  (forall st' sc',
     startPath (fst s) (snd s) = (Normal (JsBoolean true), st', sc') ->
     exists path m,
       _currentPath st' = Some path /\ objects sc' !! path = Some m /\
       is_path m = true /\ isPickable m = false) /\
  (forall i m,
     objects (snd s) !! i = Some m -> is_path m = true -> isPickable m = false) /\
  (forall info,
     pick (snd s) (pointerX (snd s)) (pointerY (snd s)) = Some info ->
     hit info = true ->
     pickedMesh info = 0%nat /\
     exists m, objects (snd s) !! pickedMesh info = Some m /\ is_path m = false).
Proof.
  intros Hpick Hreach.
  apply reachable_consistent in Hreach as [[m0 [Hm0 Hplane]] Hrest _ _].
  split; [|split].
  - intros st' sc' Hstart.
    apply startPath_true_unpickable in Hstart as (path & m & ? & ? & _ & ? & ?).
    by exists path, m.
  - intros [|i] m Hi Hm.
    + rewrite Hm0 in Hi. injection Hi as <-. congruence.
    + by destruct (Hrest i m Hi).
  - intros info Hinfo Hhit.
    destruct (Hpick _ _ _ _ Hinfo Hhit) as (m & Hm & Hpickable).
    destruct (pickedMesh info) as [|i] eqn:Hi.
    + split; [done|]. exists m0. split; [done|]. done.
    + destruct (Hrest i m Hm) as [_ Hno]. congruence.
Qed.

(** ** A radius that is not positive *)

Lemma spec_rejects_radius st :
  (_currentSize st * _sizeScaleFactor st <= 0)%Q ->
  PathMesh_accepts_spec (path_options st) = false.
Proof.
  intros Hle. apply Qle_bool_iff in Hle.
  unfold PathMesh_accepts_spec, path_options.
  destruct (_debug st); simpl; by rewrite Hle.
Qed.

(** After [changeSize] with a size that is not positive, the radius that
    [_createPath] computes is not positive either. *)
Lemma changeSize_nonpositive_radius st sc size :
  (size <= 0)%Q -> (0 <= _sizeScaleFactor st)%Q ->
  exists st',
    changeSize size st sc = (Normal tt, st', sc) /\
    (_currentSize st' * _sizeScaleFactor st' <= 0)%Q.
Proof.
  intros Hsize Hscale. exists (set_currentSize size st). split; [done|].
  simpl. rewrite <- (Qmult_0_l (_sizeScaleFactor st)).
  by apply Qmult_le_compat_r.
Qed.

(** C5 (as the code has it, on a [PathMesh] constructor that follows the
    spec).  In Idle, when the pick hits and the radius computed from the
    brush size is not positive, [startPath] ends with the exception
    [InvalidBrushParameter]: no path is in progress afterwards, no mesh
    has entered the scene and no request has reached it, and the undo
    list and the brush settings are as before.  The redo list has been
    emptied and the inverted world matrix written before the exception. *)
Theorem startPath_nonpositive_radius st sc info :
  (forall options, PathMesh_accepts options = PathMesh_accepts_spec options) ->
  _currentPath st = None ->
  pick sc (pointerX sc) (pointerY sc) = Some info ->
  hit info = true ->
  (_currentSize st * _sizeScaleFactor st <= 0)%Q ->
  exists st',
    startPath st sc = (Throw InvalidBrushParameter, st', sc) /\
    _currentPath st' = None /\
    _paths st' = _paths st /\
    _redoPaths st' = [] /\
    _currentSize st' = _currentSize st /\
    _currentColor st' = _currentColor st /\
    _currentMode st' = _currentMode st /\
    _invertedWorldMatrix st' = invert (getWorldMatrix sc (pickedMesh info)).
Proof.
  intros Hspec Hidle Hpick Hhit Hradius.
  eexists. split.
  - apply startPath_hit_rejected; [done..|].
    rewrite Hspec. by apply spec_rejects_radius.
  - simpl. by rewrite Hidle.
Qed.

(** ** Every call is one of eight transitions *)

Lemma endPath_drawing st sc path :
  _currentPath st = Some path ->
  endPath st sc =
    (Normal tt, set_currentPath None (set_paths (push (_paths st) path) st), sc).
Proof. intros Hcur. unfold endPath. method. by rewrite Hcur. Qed.

Lemma endPath_idle st sc :
  _currentPath st = None -> endPath st sc = (Normal tt, st, sc).
Proof. intros Hcur. unfold endPath. method. by rewrite Hcur. Qed.

Lemma started_path_shape st info v :
  is_path (started_path st info v) = true /\
  isPickable (started_path st info v) = false /\
  isDisposed (started_path st info v) = false.
Proof. done. Qed.

Lemma run_op_transition op s : transition s (run_op op s).
Proof.
  destruct s as [st sc].
  destruct op; simpl.
  - (* startPath *)
    destruct (_currentPath st) as [path|] eqn:Hcur.
    { rewrite (startPath_while_drawing _ _ path) by done. by apply quiet. }
    destruct (pick_hit (pick sc (pointerX sc) (pointerY sc))) eqn:Hpick.
    + destruct (pick sc (pointerX sc) (pointerY sc)) as [info|] eqn:Hinfo; [|done].
      simpl in Hpick.
      destruct (PathMesh_accepts (path_options st)) eqn:Hacc.
      * rewrite (startPath_hit _ _ info) by done.
        by eapply started.
      * rewrite (startPath_hit_rejected _ _ info) by done.
        by apply redo_dropped.
    + rewrite startPath_miss by done. by apply redo_dropped.
  - (* extendPath *)
    destruct (_currentPath st) as [path|] eqn:Hcur.
    2: { rewrite extendPath_in_idle by done. by apply quiet. }
    destruct (pick_hit (pick sc (pointerX sc) (pointerY sc))) eqn:Hpick.
    + destruct (pick sc (pointerX sc) (pointerY sc)) as [info|] eqn:Hinfo; [|done].
      simpl in Hpick. rewrite (extendPath_hit _ _ path info) by done.
      by eapply extended.
    + rewrite (extendPath_miss _ _ path) by done. by apply quiet.
  - (* endPath *)
    destruct (_currentPath st) as [path|] eqn:Hcur.
    + rewrite (endPath_drawing _ _ path) by done. by eapply committed.
    + rewrite endPath_idle by done. by apply quiet.
  - (* undo *)
    destruct (_currentPath st) as [path|] eqn:Hcur.
    { rewrite (undo_while_drawing _ _ path) by done. by apply quiet. }
    destruct (decide (_paths st = [])) as [Hnil|Hne].
    { rewrite (undo_empty st sc Hnil). by apply quiet. }
    apply exists_last in Hne as (l & p & Hpaths).
    rewrite (undo_idle _ _ p l) by done. by eapply undone.
  - (* redo *)
    destruct (_currentPath st) as [path|] eqn:Hcur.
    { rewrite (redo_while_drawing _ _ path) by done. by apply quiet. }
    destruct (decide (_redoPaths st = [])) as [Hnil|Hne].
    { rewrite (redo_empty st sc Hnil). by apply quiet. }
    apply exists_last in Hne as (l & p & Hredo).
    rewrite (redo_idle _ _ p l) by done. by eapply redone.
  - (* clear *)
    destruct (_currentPath st) as [path|] eqn:Hcur.
    { rewrite (clear_while_drawing _ _ path) by done. by apply quiet. }
    rewrite clear_idle by done. apply cleared; try done.
    simpl. apply dispose_all_calls.
  - by apply quiet.
  - by apply quiet.
  - by apply quiet.
  - by apply quiet.
Qed.

(** ** Scene membership *)

Lemma attached_snoc cs c i :
  attached (cs ++ [c]) i =
    if decide (call_mesh c = i)
    then match c with addMesh _ => true | _ => false end
    else attached cs i.
Proof.
  unfold attached. rewrite foldl_app. simpl.
  destruct c; simpl; by destruct (decide (m = i)).
Qed.

Lemma attached_app_other cs cs' i :
  (forall c, c ∈ cs' -> call_mesh c <> i) ->
  attached (cs ++ cs') i = attached cs i.
Proof.
  induction cs' as [|c cs' IH] using rev_ind; intros Hother.
  - by rewrite app_nil_r.
  - rewrite app_assoc, attached_snoc.
    rewrite decide_False by (apply Hother; set_solver).
    apply IH. intros c' Hc'. apply Hother. set_solver.
Qed.

Lemma attached_unmentioned cs i :
  (forall c, c ∈ cs -> call_mesh c <> i) -> attached cs i = true.
Proof. intros Hother. by rewrite <- (app_nil_l cs), attached_app_other. Qed.

(** ** Disposing a list of meshes *)

Lemma dispose_all_snoc l path sc :
  dispose_all (l ++ [path]) sc = Mesh_dispose path (dispose_all l sc).
Proof. unfold dispose_all. by rewrite foldl_app. Qed.

Lemma Mesh_dispose_objects path sc :
  objects (Mesh_dispose path sc) = alter (set_isDisposed true) path (objects sc).
Proof. reflexivity. Qed.

Lemma dispose_all_length l sc :
  length (objects (dispose_all l sc)) = length (objects sc).
Proof.
  induction l as [|path l IH] using rev_ind; [done|].
  rewrite dispose_all_snoc, Mesh_dispose_objects. by rewrite length_alter.
Qed.

Lemma dispose_all_lookup_other l sc i :
  i ∉ l -> objects (dispose_all l sc) !! i = objects sc !! i.
Proof.
  induction l as [|path l IH] using rev_ind; intros Hi; [done|].
  rewrite dispose_all_snoc, Mesh_dispose_objects.
  rewrite list_lookup_alter_ne by set_solver. apply IH. set_solver.
Qed.


Lemma dispose_all_disposed l sc i m :
  i ∈ l -> objects sc !! i = Some m ->
  exists m', objects (dispose_all l sc) !! i = Some m' /\ isDisposed m' = true.
Proof.
  induction l as [|path l IH] using rev_ind; intros Hi Hm; [set_solver|].
  rewrite dispose_all_snoc, Mesh_dispose_objects.
  destruct (decide (path = i)) as [->|Hne].
  - assert (Hlt : (i < length (objects (dispose_all l sc)))%nat).
    { rewrite dispose_all_length. by apply lookup_lt_Some in Hm. }
    destruct (lookup_lt_is_Some_2 _ _ Hlt) as [m' Hm'].
    exists (set_isDisposed true m'). split; [|done].
    rewrite list_lookup_alter_eq. by rewrite Hm'.
  - rewrite list_lookup_alter_ne by done. apply IH; [|done].
    apply elem_of_app in Hi as [Hi|Hi%list_elem_of_singleton]; [done|].
    by subst.
Qed.

(** ** The canvas and the scene stay in step *)

Lemma elem_of_rev {A} (l : list A) (a : A) : a ∈ rev l <-> a ∈ l.
Proof. rewrite !list_elem_of_In. symmetry. apply in_rev. Qed.

Lemma held_paths st i : i ∈ _paths st -> i ∈ held st.
Proof. intros Hi. unfold held. apply elem_of_app. by left. Qed.

Lemma held_redoPaths st i : i ∈ _redoPaths st -> i ∈ held st.
Proof.
  intros Hi. unfold held. apply elem_of_app. right. apply elem_of_app. by left.
Qed.

Lemma held_currentPath st i : _currentPath st = Some i -> i ∈ held st.
Proof.
  intros Hi. unfold held. rewrite Hi. simpl.
  apply elem_of_app. right. apply elem_of_app. right. by apply list_elem_of_singleton.
Qed.

Lemma held_cases st i :
  i ∈ held st ->
  i ∈ _paths st \/ i ∈ _redoPaths st \/ _currentPath st = Some i.
Proof.
  unfold held. intros [Hi|[Hi|Hi]%elem_of_app]%elem_of_app; [auto..|].
  right. right. destruct (_currentPath st); simpl in Hi.
  - by apply list_elem_of_singleton in Hi as ->.
  - by apply elem_of_nil in Hi.
Qed.

(** What [NoDup (held st)] says about the three places a stroke can be
    held in. *)
Lemma held_once_apart st :
  NoDup (held st) ->
  NoDup (_paths st) /\ NoDup (_redoPaths st) /\
  (forall i, i ∈ _paths st -> i ∈ _redoPaths st -> False) /\
  (forall i, _currentPath st = Some i -> i ∈ _paths st -> False) /\
  (forall i, _currentPath st = Some i -> i ∈ _redoPaths st -> False).
Proof.
  unfold held. intros (Hp & Hpr & (Hr & Hrc & _)%NoDup_app)%NoDup_app.
  repeat split; [done..| | |].
  - intros i Hi Hi'. apply (Hpr i Hi). apply elem_of_app. by left.
  - intros i Hcur Hi. apply (Hpr i Hi). apply elem_of_app. right.
    rewrite Hcur. by apply list_elem_of_singleton.
  - intros i Hcur Hi. apply (Hrc i Hi).
    rewrite Hcur. by apply list_elem_of_singleton.
Qed.

Lemma in_step_transition s s' :
  consistent (fst s) (snd s) -> in_step (fst s) (snd s) ->
  transition s s' -> in_step (fst s') (snd s').
Proof.
  intros [_ _ Hex Hnd] [Hcalls Halive Hshown Hhidden] Ht.
  unfold MeshId in *.
  destruct Ht as
    [ st sc st' sc' Hp Hr Hc Ho Hcs
    | st sc st' sc' Hidle Hp Hr Hc Ho Hcs
    | st sc st' sc' m Hidle Hp Hr Hc Ho Hpath Hpick Hdisp Hcs
    | st sc st' sc' path point Hcur Hp Hr Hc Ho Hcs
    | st sc st' sc' path Hcur Hp Hr Hc Ho Hcs
    | st sc st' sc' path Hidle Hp Hr Hc Ho Hcs
    | st sc st' sc' path Hidle Hr Hp Hc Ho Hcs
    | st sc st' sc' Hidle Hp Hr Hc Ho Hcs ];
    simpl in *;
    apply held_once_apart in Hnd as (Hndp & Hndr & Hpr & Hcp & Hcr).
  - (* quiet *)
    split; rewrite ?Ho, ?Hcs, ?Hp, ?Hc; auto.
    + intros i Hi. apply Halive.
      apply held_cases in Hi as [Hi|[Hi|Hi]]; rewrite ?Hp, ?Hr, ?Hc in Hi;
        eauto using held_paths, held_redoPaths, held_currentPath.
    + rewrite Hr. auto.
  - (* the redo list is dropped *)
    split; rewrite ?Ho, ?Hcs, ?Hp, ?Hc, ?Hr; auto.
    + intros i Hi. apply Halive.
      apply held_cases in Hi as [Hi|[Hi|Hi]]; rewrite ?Hp, ?Hr, ?Hc in Hi;
        [by apply held_paths | by apply elem_of_nil in Hi | done].
    + rewrite Hidle in Hshown. auto.
    + intros i Hi. by apply elem_of_nil in Hi.
  - (* a path is started *)
    assert (Hfresh : forall c, c ∈ calls sc -> call_mesh c <> length (objects sc)).
    { intros c Hc'. apply Hcalls in Hc'. lia. }
    split; rewrite ?Ho, ?Hcs, ?Hp, ?Hc, ?Hr.
    + intros c Hc'. rewrite length_app. simpl. apply Hcalls in Hc'. lia.
    + intros i Hi.
      apply held_cases in Hi as [Hi|[Hi|Hi]]; rewrite ?Hp, ?Hr, ?Hc in Hi.
      * destruct (Halive i (held_paths _ _ Hi)) as (m' & Hm' & Halv).
        exists m'. split; [|done]. by apply lookup_app_l_Some.
      * by apply elem_of_nil in Hi.
      * injection Hi as <-. exists m. split; [|done]. by apply list_lookup_middle.
    + intros i [Hi| ->%list_elem_of_singleton]%elem_of_app.
      * apply Hshown. apply elem_of_app. by left.
      * by apply attached_unmentioned.
    + intros i Hi. by apply elem_of_nil in Hi.
  - (* the path in progress is extended *)
    split; rewrite ?Ho, ?Hcs, ?Hp, ?Hc, ?Hr; auto.
    + intros c Hc'. rewrite length_alter. auto.
    + intros i Hi.
      assert (Hi' : i ∈ held st).
      { apply held_cases in Hi as [Hi|[Hi|Hi]]; rewrite ?Hp, ?Hr, ?Hc in Hi;
          [by apply held_paths | by apply held_redoPaths |].
        apply held_currentPath. by rewrite Hcur. }
      destruct (Halive i Hi') as (m' & Hm' & Halv).
      destruct (decide (path = i)) as [->|Hne].
      * exists (add_point point m'). rewrite list_lookup_alter_eq, Hm'.
        split; [done|]. unfold add_point. by destruct (geometry m').
      * exists m'. by rewrite list_lookup_alter_ne.
    + rewrite Hcur in Hshown. auto.
  - (* the path in progress is committed *)
    split; rewrite ?Ho, ?Hcs, ?Hp, ?Hc, ?Hr; auto.
    + intros i Hi. apply Halive.
      apply held_cases in Hi as [Hi|[Hi|Hi]]; rewrite ?Hp, ?Hr, ?Hc in Hi;
        [|by apply held_redoPaths|done].
      apply elem_of_app in Hi as [Hi| ->%list_elem_of_singleton];
        [by apply held_paths | by apply held_currentPath].
    + rewrite Hcur in Hshown. simpl. rewrite app_nil_r. auto.
  - (* undo *)
    assert (Hin : path ∈ _paths st).
    { rewrite Hp. apply elem_of_app. right. by apply list_elem_of_singleton. }
    split; rewrite ?Ho, ?Hcs, ?Hc.
    + intros c [Hc'| ->%list_elem_of_singleton]%elem_of_app; [auto|].
      simpl. apply Hex, held_paths, Hin.
    + intros i Hi. apply Halive.
      apply held_cases in Hi as [Hi|[Hi|Hi]]; rewrite ?Hr, ?Hc in Hi; [| |done].
      * apply held_paths. rewrite Hp. apply elem_of_app. by left.
      * apply elem_of_app in Hi as [Hi| ->%list_elem_of_singleton];
          [by apply held_redoPaths | by apply held_paths].
    + simpl. rewrite app_nil_r. intros i Hi.
      rewrite attached_snoc. simpl.
      destruct (decide (path = i)) as [->|Hne].
      * rewrite Hp in Hndp. apply NoDup_app in Hndp as (_ & Hapart & _).
        destruct (Hapart i Hi). by apply list_elem_of_singleton.
      * apply Hshown. apply elem_of_app. left. rewrite Hp.
        apply elem_of_app. by left.
    + intros i Hi. rewrite attached_snoc. simpl.
      destruct (decide (path = i)) as [->|Hne]; [done|].
      apply Hhidden. rewrite Hr in Hi.
      apply elem_of_app in Hi as [Hi| Hi%list_elem_of_singleton]; [done|].
      by subst.
  - (* redo *)
    assert (Hin : path ∈ _redoPaths st).
    { rewrite Hr. apply elem_of_app. right. by apply list_elem_of_singleton. }
    split; rewrite ?Ho, ?Hcs, ?Hc.
    + intros c [Hc'| ->%list_elem_of_singleton]%elem_of_app; [auto|].
      simpl. apply Hex, held_redoPaths, Hin.
    + intros i Hi. apply Halive.
      apply held_cases in Hi as [Hi|[Hi|Hi]]; rewrite ?Hp, ?Hc in Hi; [| |done].
      * apply elem_of_app in Hi as [Hi| ->%list_elem_of_singleton];
          [by apply held_paths | by apply held_redoPaths].
      * apply held_redoPaths. rewrite Hr. apply elem_of_app. by left.
    + simpl. rewrite app_nil_r. intros i Hi.
      rewrite attached_snoc. simpl.
      destruct (decide (path = i)) as [->|Hne]; [done|].
      apply Hshown. rewrite Hidle. simpl. rewrite app_nil_r.
      rewrite Hp in Hi.
      apply elem_of_app in Hi as [Hi| Hi%list_elem_of_singleton]; [done|].
      by subst.
    + intros i Hi. rewrite attached_snoc. simpl.
      destruct (decide (path = i)) as [->|Hne].
      * rewrite Hr in Hndr. apply NoDup_app in Hndr as (_ & Hapart & _).
        destruct (Hapart i Hi). by apply list_elem_of_singleton.
      * apply Hhidden. rewrite Hr. apply elem_of_app. by left.
  - (* clear *)
    split; rewrite ?Ho, ?Hcs, ?Hc, ?Hp, ?Hr.
    + rewrite dispose_all_length.
      intros c [Hc'|Hc']%elem_of_app; [auto|].
      apply list_elem_of_fmap in Hc' as (i & -> & Hi). simpl.
      rewrite elem_of_rev in Hi. apply Hex, held_paths, Hi.
    + intros i Hi.
      apply held_cases in Hi as [Hi|[Hi|Hi]]; rewrite ?Hp, ?Hr, ?Hc in Hi;
        [by apply elem_of_nil in Hi | | done].
      rewrite dispose_all_lookup_other.
      * by apply Halive, held_redoPaths.
      * intros Hi'. rewrite elem_of_rev in Hi'. eauto.
    + simpl. intros i Hi. by apply elem_of_nil in Hi.
    + intros i Hi. rewrite attached_app_other; [auto|].
      intros c Hc' <-. apply list_elem_of_fmap in Hc' as (j & -> & Hj).
      simpl in Hi. rewrite elem_of_rev in Hj. eauto.
Qed.

Lemma in_step_new px py debug :
  in_step (fst (new_InkCanvas (mkScene px py [] []) debug))
          (snd (new_InkCanvas (mkScene px py [] []) debug)).
Proof.
  split; simpl; intros i Hi; by apply elem_of_nil in Hi.
Qed.

Lemma reachable_in_step s : reachable s -> in_step (fst s) (snd s).
Proof.
  induction 1 as [px py debug|op s Hreach IH].
  - apply in_step_new.
  - eapply in_step_transition; [|done|apply run_op_transition].
    by apply reachable_consistent.
Qed.

(** ** Case analysis of a call

    [split_op op st sc] replaces [run_op op (st, sc)] in the goal by the
    state the call ends in, one goal for each way the call can go. *)
Ltac split_startPath st sc :=
  let Hcur := fresh "Hcur" in
  let Hpick := fresh "Hpick" in
  let Hinfo := fresh "Hinfo" in
  let Hacc := fresh "Hacc" in
  let info := fresh "info" in
  let path := fresh "path" in
  destruct (_currentPath st) as [path|] eqn:Hcur;
  [ rewrite (startPath_while_drawing st sc path Hcur)
  | destruct (pick_hit (pick sc (pointerX sc) (pointerY sc))) eqn:Hpick;
    [ destruct (pick sc (pointerX sc) (pointerY sc)) as [info|] eqn:Hinfo;
      [|discriminate Hpick];
      simpl in Hpick;
      destruct (PathMesh_accepts (path_options st)) eqn:Hacc;
      [ rewrite (startPath_hit st sc info Hcur Hinfo Hpick Hacc)
      | rewrite (startPath_hit_rejected st sc info Hcur Hinfo Hpick Hacc) ]
    | rewrite (startPath_miss st sc Hcur Hpick) ] ].

Ltac split_extendPath st sc :=
  let Hcur := fresh "Hcur" in
  let Hpick := fresh "Hpick" in
  let Hinfo := fresh "Hinfo" in
  let info := fresh "info" in
  let path := fresh "path" in
  destruct (_currentPath st) as [path|] eqn:Hcur;
  [ destruct (pick_hit (pick sc (pointerX sc) (pointerY sc))) eqn:Hpick;
    [ destruct (pick sc (pointerX sc) (pointerY sc)) as [info|] eqn:Hinfo;
      [|discriminate Hpick];
      simpl in Hpick;
      rewrite (extendPath_hit st sc path info Hcur Hinfo Hpick)
    | rewrite (extendPath_miss st sc path Hcur Hpick) ]
  | rewrite (extendPath_in_idle st sc Hcur) ].

Ltac split_endPath st sc :=
  let Hcur := fresh "Hcur" in
  let path := fresh "path" in
  destruct (_currentPath st) as [path|] eqn:Hcur;
  [ rewrite (endPath_drawing st sc path Hcur)
  | rewrite (endPath_idle st sc Hcur) ].

Ltac split_undo st sc :=
  let Hcur := fresh "Hcur" in
  let Hnil := fresh "Hnil" in
  let Hpaths := fresh "Hpaths" in
  let path := fresh "path" in
  let l := fresh "l" in
  let p := fresh "p" in
  destruct (_currentPath st) as [path|] eqn:Hcur;
  [ rewrite (undo_while_drawing st sc path Hcur)
  | destruct (decide (_paths st = [])) as [Hnil|Hnil];
    [ rewrite (undo_empty st sc Hnil)
    | apply exists_last in Hnil as (l & p & Hpaths);
      rewrite (undo_idle st sc p l Hcur Hpaths) ] ].

Ltac split_redo st sc :=
  let Hcur := fresh "Hcur" in
  let Hnil := fresh "Hnil" in
  let Hredo := fresh "Hredo" in
  let path := fresh "path" in
  let l := fresh "l" in
  let p := fresh "p" in
  destruct (_currentPath st) as [path|] eqn:Hcur;
  [ rewrite (redo_while_drawing st sc path Hcur)
  | destruct (decide (_redoPaths st = [])) as [Hnil|Hnil];
    [ rewrite (redo_empty st sc Hnil)
    | apply exists_last in Hnil as (l & p & Hredo);
      rewrite (redo_idle st sc p l Hcur Hredo) ] ].

Ltac split_clear st sc :=
  let Hcur := fresh "Hcur" in
  let path := fresh "path" in
  destruct (_currentPath st) as [path|] eqn:Hcur;
  [ rewrite (clear_while_drawing st sc path Hcur)
  | rewrite (clear_idle st sc Hcur) ].

Ltac split_op op st sc :=
  destruct op; simpl;
  [ split_startPath st sc | split_extendPath st sc | split_endPath st sc
  | split_undo st sc | split_redo st sc | split_clear st sc
  | | | | ].

Lemma clear_empty st sc : _paths st = [] -> clear st sc = (Normal tt, st, sc).
Proof.
  intros Hpaths. unfold clear. method. rewrite Hpaths. simpl.
  by rewrite andb_false_r.
Qed.

Lemma run_app ops1 ops2 s : run (ops1 ++ ops2) s = run ops2 (run ops1 s).
Proof. unfold run. apply foldl_app. Qed.

(** ** The constants of a canvas *)



(** ** Ending a path *)

(** X1.  [endPath] puts the path in progress on top of the undo list and
    leaves the canvas idle; the redo list and the scene are not touched,
    and a second [endPath] changes nothing. *)
Theorem endPath_commits_once st sc path :
  _currentPath st = Some path ->
  let s1 := after endPath (st, sc) in
  _paths (fst s1) = _paths st ++ [path] /\
  _redoPaths (fst s1) = _redoPaths st /\
  _currentPath (fst s1) = None /\
  snd s1 = sc /\
  after endPath s1 = s1.
Proof.
  intros Hcur s1.
  assert (Hs1 : s1 = (set_currentPath None (set_paths (push (_paths st) path) st), sc)).
  { unfold s1. simpl. by rewrite (endPath_drawing _ _ path). }
  rewrite Hs1. by repeat split.
Qed.

(** ** Undo and redo undo each other *)

Lemma undo_redo_canvas st sc sc' path rest :
  _currentPath st = None -> _paths st = push rest path ->
  after redo (fst (after undo (st, sc)), sc') = (st, Scene_addMesh path sc').
Proof.
  intros Hidle Hpaths. simpl. rewrite (undo_idle _ _ path rest) by done.
  simpl. erewrite redo_idle; [|done..]. simpl. f_equal.
  destruct st; simpl in *; by subst.
Qed.

Lemma redo_undo_canvas st sc sc' path rest :
  _currentPath st = None -> _redoPaths st = push rest path ->
  after undo (fst (after redo (st, sc)), sc') = (st, Scene_removeMesh path sc').
Proof.
  intros Hidle Hredo. simpl. rewrite (redo_idle _ _ path rest) by done.
  simpl. erewrite undo_idle; [|done..]. simpl. f_equal.
  destruct st; simpl in *; by subst.
Qed.

(** X2.  In Idle with a stroke to undo, [undo] followed by [redo] gives
    back the canvas exactly as it was; the scene was asked to remove and
    then to add the stroke on top of the undo list. *)
Theorem undo_redo_identity st sc :
  _currentPath st = None -> _paths st <> [] ->
  exists path,
    last (_paths st) = Some path /\
    after redo (after undo (st, sc)) =
      (st, Scene_addMesh path (Scene_removeMesh path sc)).
Proof.
  intros Hidle Hne. apply exists_last in Hne as (rest & path & Hpaths).
  exists path. split; [rewrite Hpaths; apply last_snoc|].
  rewrite <- (undo_redo_canvas st sc (Scene_removeMesh path sc) path rest) by done.
  simpl. by rewrite (undo_idle _ _ path rest).
Qed.

(** X3.  In Idle with a stroke to redo, [redo] followed by [undo] gives
    back the canvas exactly as it was; the scene was asked to add and then
    to remove the stroke on top of the redo list. *)
Theorem redo_undo_identity st sc :
  _currentPath st = None -> _redoPaths st <> [] ->
  exists path,
    last (_redoPaths st) = Some path /\
    after undo (after redo (st, sc)) =
      (st, Scene_removeMesh path (Scene_addMesh path sc)).
Proof.
  intros Hidle Hne. apply exists_last in Hne as (rest & path & Hredo).
  exists path. split; [rewrite Hredo; apply last_snoc|].
  rewrite <- (redo_undo_canvas st sc (Scene_addMesh path sc) path rest) by done.
  simpl. by rewrite (redo_idle _ _ path rest).
Qed.

(** X4.  With nothing to act on, the history calls are silent: [undo] and
    [clear] on an empty undo list, and [redo] on an empty redo list,
    return with the canvas and the scene as they were. *)
Theorem history_noop_on_empty st sc :
  (_paths st = [] ->
   undo st sc = (Normal tt, st, sc) /\ clear st sc = (Normal tt, st, sc)) /\
  (_redoPaths st = [] -> redo st sc = (Normal tt, st, sc)).
Proof.
  split.
  - intros Hpaths. split; [by apply undo_empty|by apply clear_empty].
  - apply redo_empty.
Qed.

(** ** Sequences of undo and redo *)

Lemma undo_redo_step op s :
  is_undo_or_redo op = true ->
  timeline (fst (run_op op s)) = timeline (fst s) /\
  _currentPath (fst (run_op op s)) = _currentPath (fst s) /\
  objects (snd (run_op op s)) = objects (snd s).
Proof.
  destruct s as [st sc]. intros Hop.
  destruct op; try discriminate Hop; simpl.
  - split_undo st sc; simpl; try done.
    unfold timeline, push. simpl. rewrite Hpaths, rev_app_distr. simpl.
    by rewrite <- app_assoc.
  - split_redo st sc; simpl; try done.
    unfold timeline, push. simpl. rewrite Hredo, rev_app_distr. simpl.
    by rewrite <- app_assoc.
Qed.

Lemma undo_redo_run ops s :
  forallb is_undo_or_redo ops = true ->
  timeline (fst (run ops s)) = timeline (fst s) /\
  _currentPath (fst (run ops s)) = _currentPath (fst s) /\
  objects (snd (run ops s)) = objects (snd s).
Proof.
  revert s. induction ops as [|op ops IH]; intros s Hops; [done|].
  simpl in Hops. apply andb_prop in Hops as [Hop Hops].
  destruct (undo_redo_step op s Hop) as (Ht & Hc & Ho).
  destruct (IH (run_op op s) Hops) as (Ht' & Hc' & Ho').
  simpl. by rewrite Ht', Hc', Ho'.
Qed.

(** X5.  However [undo] and [redo] are mixed, no stroke is lost and none
    changes place: the undo list followed by the redo list read backwards
    is the same afterwards.  The path in progress and the objects of the
    scene are not touched either. *)
Theorem undo_redo_keep_timeline ops s :
  forallb is_undo_or_redo ops = true ->
  timeline (fst (run ops s)) = timeline (fst s) /\
  _currentPath (fst (run ops s)) = _currentPath (fst s) /\
  objects (snd (run ops s)) = objects (snd s).
Proof. apply undo_redo_run. Qed.

Lemma forallb_replicate {A} (f : A -> bool) n a :
  f a = true -> forallb f (replicate n a) = true.
Proof. intros Hf. induction n as [|n IH]; simpl; [done|]. by rewrite Hf, IH. Qed.

Lemma redo_canvas_only st sc sc' :
  fst (after redo (st, sc)) = fst (after redo (st, sc')).
Proof.
  simpl. split_redo st sc.
  - by rewrite (redo_while_drawing st sc' path).
  - by rewrite (redo_empty st sc').
  - by rewrite (redo_idle st sc' p l).
Qed.

(** X6.  In Idle, [n] undos followed by [n] redos, for any [n] up to the
    length of the undo list, give back the canvas exactly as it was, and
    the objects of the scene are as before. *)
Theorem undo_n_redo_n n s :
  _currentPath (fst s) = None ->
  (n <= length (_paths (fst s)))%nat ->
  fst (run (replicate n OpUndo ++ replicate n OpRedo) s) = fst s /\
  objects (snd (run (replicate n OpUndo ++ replicate n OpRedo) s)) =
    objects (snd s).
Proof.
  intros Hidle Hn. split.
  2: { apply undo_redo_run. rewrite forallb_app.
       by rewrite !forallb_replicate. }
  revert s Hidle Hn. induction n as [|n IH]; intros [st sc] Hidle Hn; [done|].
  simpl in Hidle, Hn.
  destruct (decide (_paths st = [])) as [Hnil|Hne].
  { rewrite Hnil in Hn. simpl in Hn. lia. }
  apply exists_last in Hne as (rest & path & Hpaths).
  rewrite (replicate_S_end n OpRedo), app_assoc, run_app.
  change (replicate (S n) OpUndo ++ replicate n OpRedo)
    with (OpUndo :: (replicate n OpUndo ++ replicate n OpRedo)).
  change (run (OpUndo :: (replicate n OpUndo ++ replicate n OpRedo)) (st, sc))
    with (run (replicate n OpUndo ++ replicate n OpRedo) (after undo (st, sc))).
  set (mid := run (replicate n OpUndo ++ replicate n OpRedo) (after undo (st, sc))).
  assert (Hmid : fst mid = fst (after undo (st, sc))).
  { apply IH.
    - simpl. by rewrite (undo_idle _ _ path rest).
    - simpl. rewrite (undo_idle _ _ path rest) by done. simpl.
      rewrite Hpaths, length_app in Hn. simpl in Hn. lia. }
  destruct mid as [st1 sc1]. simpl in Hmid.
  change (run [OpRedo] (st1, sc1)) with (after redo (st1, sc1)).
  rewrite Hmid.
  change (let '(_, st', sc') := undo st sc in (st', sc'))
    with (after undo (st, sc)).
  by rewrite (undo_redo_canvas st sc sc1 path rest).
Qed.

(** ** The requests made to the scene *)

(** X8.  The canvas talks to the scene in three places only: [undo] asks
    to remove the stroke it pops, [redo] asks to add the stroke it pops,
    and [clear] asks to dispose every stroke of the undo list, last one
    first.  No other call, and none of these with a path in progress or
    with nothing to pop, makes a request. *)
Theorem scene_requests op st sc :
  calls (snd (run_op op (st, sc))) = calls sc ++ requests op st.
Proof.
  unfold requests.
  split_op op st sc; simpl; rewrite ?Hcur, ?app_nil_r; try done.
  - rewrite Hnil. simpl. by rewrite app_nil_r.
  - by rewrite Hpaths, last_snoc.
  - rewrite Hnil. simpl. by rewrite app_nil_r.
  - by rewrite Hredo, last_snoc.
  - apply dispose_all_calls.
  - destruct (_currentPath st); by rewrite app_nil_r.
  - destruct (_currentPath st); by rewrite app_nil_r.
  - destruct (_currentPath st); by rewrite app_nil_r.
  - destruct (_currentPath st); by rewrite app_nil_r.
Qed.

(** ** Starting a path, in full *)

(** X7.  In Idle, when the pick hits and the [PathMesh] constructor
    accepts the options, [startPath] returns [true]; the redo list is
    emptied, the undo list is untouched, and the path in progress is a new
    mesh, the last object of the scene: seeded at the picked point in the
    coordinates of the picked mesh, child of the picked mesh, in rendering
    group 2, not pickable, always selected as active, with a frozen world
    matrix and a frozen material.  No request is made to the scene. *)
Theorem startPath_starts_stroke st sc info :
  _currentPath st = None ->
  pick sc (pointerX sc) (pointerY sc) = Some info ->
  hit info = true ->
  PathMesh_accepts (path_options st) = true ->
  let local :=
    TransformCoordinates (pickedPoint info)
      (invert (getWorldMatrix sc (pickedMesh info))) in
  exists st' sc' m,
    startPath st sc = (Normal (JsBoolean true), st', sc') /\
    _currentPath st' = Some (length (objects sc)) /\
    _paths st' = _paths st /\
    _redoPaths st' = [] /\
    objects sc' = objects sc ++ [m] /\
    calls sc' = calls sc /\
    geometry m =
      Path "path" (Vector3.x local, Vector3.y local) (path_options st) [] /\
    parent m = Some (pickedMesh info) /\
    renderingGroupId m = 2%Z /\
    isPickable m = false /\
    alwaysSelectAsActiveMesh m = true /\
    worldMatrixFrozen m = true /\
    (isFrozen <$> material m) = Some true.
Proof.
  intros Hidle Hpick Hhit Hacc local.
  eexists _, _, _. split; [by apply (startPath_hit st sc info)|].
  by repeat split.
Qed.

(** ** Strokes the canvas holds *)

Lemma held_strokes_alive_aux s i :
  reachable s ->
  i ∈ held (fst s) ->
  exists m,
    objects (snd s) !! i = Some m /\ is_path m = true /\ isDisposed m = false.
Proof.
  intros Hreach Hi.
  destruct (held_alive _ _ (reachable_in_step s Hreach) i Hi) as (m & Hm & Halv).
  destruct (reachable_consistent s Hreach) as [_ Hrest Hex _].
  exists m. split; [done|]. split; [|done].
  destruct i as [|i]; [apply Hex in Hi; lia|].
  by destruct (Hrest i m Hm).
Qed.

(** X9.  In every state the canvas can reach, each stroke it holds, on
    the undo list, on the redo list or in progress, is a path mesh of the
    scene that has not been disposed: the canvas never keeps a reference
    to a mesh it has disposed. *)
Theorem held_strokes_are_alive s i :
  reachable s ->
  i ∈ held (fst s) ->
  exists m,
    objects (snd s) !! i = Some m /\ is_path m = true /\ isDisposed m = false.
Proof. apply held_strokes_alive_aux. Qed.

(** X10.  In every state the canvas can reach, the scene shows what the
    undo list says: the strokes on the undo list and the path in progress
    are in the scene, and the strokes on the redo list are out of it. *)
Theorem scene_shows_undo_list s :
  reachable s ->
  (forall i, i ∈ _paths (fst s) ++ option_list (_currentPath (fst s)) ->
     attached (calls (snd s)) i = true) /\
  (forall i, i ∈ _redoPaths (fst s) -> attached (calls (snd s)) i = false).
Proof.
  intros Hreach. destruct (reachable_in_step s Hreach) as [_ _ Hshown Hhidden].
  by split.
Qed.


(** ** Extending a path, in full *)


(** ** Brush settings and the next stroke *)

(** X13.  The colour set by [changeColor] is the colour of the next
    stroke: a stroke started after [changeColor(color)] carries the simple
    material of that colour, whatever the mode was before, unless the
    canvas is in debug mode, where it carries the debug material.  In both
    cases back-face culling is off and the material is frozen. *)
Theorem changeColor_decides_material st sc info color :
  _currentPath st = None ->
  pick sc (pointerX sc) (pointerY sc) = Some info ->
  hit info = true ->
  PathMesh_accepts (path_options st) = true ->
  let s2 := after startPath (after (changeColor color) (st, sc)) in
  exists m,
    _currentPath (fst s2) = Some (length (objects sc)) /\
    objects (snd s2) !! length (objects sc) = Some m /\
    material m =
      Some (if _debug st
            then mkMaterial "debugMaterial" DebugMaterial false true
            else mkMaterial "pathMaterial" (SimpleMaterial color) false true).
Proof.
  intros Hidle Hpick Hhit Hacc s2.
  assert (Hs2 : s2 = after startPath (set_currentMode pen (set_currentColor color st), sc))
    by done.
  simpl in Hs2. rewrite (startPath_hit _ _ info) in Hs2 by done.
  rewrite Hs2. simpl. eexists. split; [done|].
  split; [by apply list_lookup_middle|].
  simpl. unfold path_material. simpl. by destruct (_debug st).
Qed.


(** ** Clearing keeps the redo list *)

(** X15.  [clear] leaves the redo list usable: in a state the canvas can
    reach, in Idle with a stroke on the redo list, [clear] followed by
    [redo] makes that stroke the only one on the undo list; its mesh was
    not touched by [clear], is not disposed, and is the last thing the
    scene was asked to add. *)
Theorem clear_then_redo st sc rest path :
  reachable (st, sc) ->
  _currentPath st = None ->
  _redoPaths st = rest ++ [path] ->
  let s2 := after redo (after clear (st, sc)) in
  _paths (fst s2) = [path] /\
  _redoPaths (fst s2) = rest /\
  objects (snd s2) !! path = objects sc !! path /\
  (exists m, objects (snd s2) !! path = Some m /\ isDisposed m = false) /\
  last (calls (snd s2)) = Some (addMesh path).
Proof.
  intros Hreach Hidle Hredo s2.
  assert (Hin : path ∈ _redoPaths st).
  { rewrite Hredo. apply elem_of_app. right. by apply list_elem_of_singleton. }
  destruct (held_strokes_alive_aux (st, sc) path Hreach
              (held_redoPaths st path Hin)) as (m & Hm & _ & Halv).
  destruct (reachable_consistent _ Hreach) as [_ _ _ Hnd].
  apply held_once_apart in Hnd as (_ & _ & Hpr & _ & _). simpl in *.
  assert (Hs2 : s2 =
    (set_paths [path] (set_redoPaths rest (set_paths [] st)),
     Scene_addMesh path (dispose_all (rev (_paths st)) sc))).
  { unfold s2. simpl. rewrite clear_idle by done. simpl.
    by rewrite (redo_idle _ _ path rest). }
  assert (Hsame : objects (snd s2) !! path = objects sc !! path).
  { rewrite Hs2. simpl. apply dispose_all_lookup_other.
    rewrite elem_of_rev. eauto. }
  rewrite Hsame. rewrite Hs2. simpl. repeat split; [|apply last_snoc].
  by exists m.
Qed.

(** ** A gesture of the pointer *)

Lemma after_bind_ret {A} (m : M A) s :
  after (bind m (fun _ => ret tt)) s = after m s.
Proof.
  destruct s as [st sc]. unfold after, bind, ret.
  by destruct (m st sc) as [[[v|e] st'] sc'].
Qed.

Lemma deliver_move_keeps px py s :
  let s' := deliver (POINTERMOVE, px, py) s in
  _paths (fst s') = _paths (fst s) /\
  _redoPaths (fst s') = _redoPaths (fst s) /\
  _currentPath (fst s') = _currentPath (fst s) /\
  calls (snd s') = calls (snd s) /\
  length (objects (snd s')) = length (objects (snd s)) /\
  (_currentPath (fst s) = None -> objects (snd s') = objects (snd s)).
Proof.
  destruct s as [st sc]. unfold deliver, onPointer.
  rewrite after_bind_ret. simpl.
  split_extendPath st (set_pointer px py sc); simpl; repeat split; try done.
  apply length_alter.
Qed.

Lemma deliver_moves_keep moves s :
  let s' := deliver_all (map (fun p => (POINTERMOVE, fst p, snd p)) moves) s in
  _paths (fst s') = _paths (fst s) /\
  _redoPaths (fst s') = _redoPaths (fst s) /\
  _currentPath (fst s') = _currentPath (fst s) /\
  calls (snd s') = calls (snd s) /\
  length (objects (snd s')) = length (objects (snd s)) /\
  (_currentPath (fst s) = None -> objects (snd s') = objects (snd s)).
Proof.
  revert s. induction moves as [|[px py] moves IH]; intros s; [done|].
  cbv zeta.
  change (deliver_all
            (map (fun p => (POINTERMOVE, fst p, snd p)) ((px, py) :: moves)) s)
    with (deliver_all (map (fun p => (POINTERMOVE, fst p, snd p)) moves)
            (deliver (POINTERMOVE, px, py) s)).
  pose proof (deliver_move_keeps px py s) as Hfirst.
  pose proof (IH (deliver (POINTERMOVE, px, py) s)) as Hrest.
  cbv zeta in Hfirst, Hrest.
  destruct Hfirst as (Hp & Hr & Hc & Hcs & Hl & Ho).
  destruct Hrest as (Hp' & Hr' & Hc' & Hcs' & Hl' & Ho').
  rewrite Hp', Hr', Hc', Hcs', Hl'. repeat split; try done.
  intros Hidle. rewrite Ho'; [by apply Ho|]. by rewrite Hc.
Qed.

Lemma deliver_all_cons e es s :
  deliver_all (e :: es) s = deliver_all es (deliver e s).
Proof. reflexivity. Qed.

Lemma deliver_all_snoc e es s :
  deliver_all (es ++ [e]) s = deliver e (deliver_all es s).
Proof. unfold deliver_all. by rewrite foldl_app. Qed.

Lemma deliver_up px py st sc :
  deliver (POINTERUP, px, py) (st, sc) =
    match _currentPath st with
    | Some path =>
        (set_currentPath None (set_paths (push (_paths st) path) st),
         set_pointer px py sc)
    | None => (st, set_pointer px py sc)
    end.
Proof.
  unfold deliver, onPointer. simpl.
  split_endPath st (set_pointer px py sc); done.
Qed.

(** X14.  A gesture of the pointer, down, any number of moves, up,
    started in Idle, ends in Idle with an empty redo list and without a
    request to the scene.  Either nothing was drawn, and the undo list and
    the objects of the scene are as before, or exactly one new stroke, the
    one mesh that entered the scene, is on top of the undo list. *)
Theorem gesture_commits_at_most_one_stroke down moves up s :
  _currentPath (fst s) = None ->
  let s' := deliver_all (gesture down moves up) s in
  _currentPath (fst s') = None /\
  _redoPaths (fst s') = [] /\
  calls (snd s') = calls (snd s) /\
  ((_paths (fst s') = _paths (fst s) /\ objects (snd s') = objects (snd s)) \/
   (_paths (fst s') = _paths (fst s) ++ [length (objects (snd s))] /\
    length (objects (snd s')) = S (length (objects (snd s))))).
Proof.
  intros Hidle s'. unfold s', gesture.
  rewrite deliver_all_cons, deliver_all_snoc.
  set (s1 := deliver (POINTERDOWN, fst down, snd down) s).
  destruct (deliver_moves_keep moves s1) as (Hp & Hr & Hc & Hcs & Hl & Ho).
  set (s2 := deliver_all (map (fun p => (POINTERMOVE, fst p, snd p)) moves) s1) in *.
  assert (Hs1 :
    _redoPaths (fst s1) = [] /\ calls (snd s1) = calls (snd s) /\
    _paths (fst s1) = _paths (fst s) /\
    ((_currentPath (fst s1) = None /\ objects (snd s1) = objects (snd s)) \/
     (_currentPath (fst s1) = Some (length (objects (snd s))) /\
      length (objects (snd s1)) = S (length (objects (snd s)))))).
  { unfold s1, deliver, onPointer. rewrite after_bind_ret.
    destruct s as [st sc]. simpl in *.
    split_startPath st (set_pointer (fst down) (snd down) sc); simpl;
      try congruence; repeat split; auto.
    right. split; [done|]. rewrite length_app. simpl. lia. }
  destruct Hs1 as (Hr1 & Hcs1 & Hp1 & Hcases).
  destruct s2 as [st2 sc2]. simpl in Hp, Hr, Hc, Hcs, Hl, Ho.
  pose proof (deliver_up (fst up) (snd up) st2 sc2) as Hup.
  destruct (_currentPath st2) as [path|] eqn:Hc2; rewrite Hup; simpl.
  - split; [done|]. split; [congruence|]. split; [congruence|].
    right. destruct Hcases as [[Hc1 _]|[Hc1 Hl1]]; [congruence|].
    unfold push. split; [|congruence].
    rewrite Hp, Hp1. f_equal. f_equal. congruence.
  - split; [done|]. split; [congruence|]. split; [congruence|].
    left. destruct Hcases as [[Hc1 Ho1]|[Hc1 _]]; [|congruence].
    split; [congruence|]. rewrite Ho by congruence. done.
Qed.

(** ** Strokes dropped from the redo list *)

(** X17.  A [startPath] in Idle drops the strokes of the redo list without
    disposing them: in a state the canvas can reach, a stroke that was on
    the redo list is held nowhere afterwards, its mesh is still in the
    object store, untouched and not disposed, and it is still out of the
    scene. *)
Theorem startPath_drops_redo_undisposed st sc i :
  reachable (st, sc) ->
  _currentPath st = None ->
  i ∈ _redoPaths st ->
  let s1 := after startPath (st, sc) in
  (i ∉ held (fst s1)) /\
  objects (snd s1) !! i = objects sc !! i /\
  (exists m, objects (snd s1) !! i = Some m /\ isDisposed m = false) /\
  attached (calls (snd s1)) i = false.
Proof.
  intros Hreach Hidle Hi s1.
  destruct (held_strokes_alive_aux (st, sc) i Hreach (held_redoPaths st i Hi))
    as (m & Hm & _ & Halv).
  destruct (reachable_consistent _ Hreach) as [_ _ Hex Hnd].
  destruct (reachable_in_step _ Hreach) as [_ _ _ Hhidden].
  apply held_once_apart in Hnd as (_ & _ & Hpr & _ & _). simpl in *.
  pose proof (Hex i (held_redoPaths st i Hi)) as Hlt.
  assert (Hout : forall st', _paths st' = _paths st -> _redoPaths st' = [] ->
            (_currentPath st' = None \/ _currentPath st' = Some (length (objects sc))) ->
            i ∉ held st').
  { intros st' Hp Hr Hc Hin.
    apply held_cases in Hin as [Hin|[Hin|Hin]].
    - rewrite Hp in Hin. eauto.
    - rewrite Hr in Hin. by apply elem_of_nil in Hin.
    - destruct Hc as [Hc|Hc]; rewrite Hc in Hin; [done|].
      injection Hin as <-. lia. }
  unfold s1. simpl. unfold MeshId in *.
  split_startPath st sc; simpl; try congruence.
  - split; [apply Hout; auto|]. rewrite lookup_app_l by lia.
    split; [done|]. split; [by exists m|]. exact (Hhidden i Hi).
  - split; [apply Hout; auto|]. split; [done|]. split; [by exists m|]. exact (Hhidden i Hi).
  - split; [apply Hout; auto|]. split; [done|]. split; [by exists m|]. exact (Hhidden i Hi).
Qed.

(** ** Strokes are held in the order they were created *)

Lemma in_order_transition s s' :
  consistent (fst s) (snd s) -> in_order (fst s) ->
  transition s s' -> in_order (fst s').
Proof.
  intros [_ _ Hex _] [Hage Hnoredo] Ht.
  destruct Ht as
    [ st sc st' sc' Hp Hr Hc Ho Hcs
    | st sc st' sc' Hidle Hp Hr Hc Ho Hcs
    | st sc st' sc' m Hidle Hp Hr Hc Ho Hpath Hpick Hdisp Hcs
    | st sc st' sc' path point Hcur Hp Hr Hc Ho Hcs
    | st sc st' sc' path Hcur Hp Hr Hc Ho Hcs
    | st sc st' sc' path Hidle Hp Hr Hc Ho Hcs
    | st sc st' sc' path Hidle Hr Hp Hc Ho Hcs
    | st sc st' sc' Hidle Hp Hr Hc Ho Hcs ];
    simpl in *; unfold timeline in *.
  - split; unfold timeline; rewrite ?Hp, ?Hr, ?Hc; auto.
  - rewrite Hidle in Hage. simpl in Hage. rewrite app_nil_r in Hage.
    split; unfold timeline; rewrite ?Hp, ?Hr, ?Hc; simpl; [|done].
    rewrite !app_nil_r. by apply StronglySorted_app_1_l in Hage.
  - rewrite Hidle in Hage. simpl in Hage. rewrite app_nil_r in Hage.
    split; unfold timeline; rewrite ?Hp, ?Hr, ?Hc; simpl; [|done].
    rewrite app_nil_r. apply StronglySorted_app.
    split; [|split].
    + intros x1 x2 Hx1 ->%list_elem_of_singleton.
      apply (Hex x1 (held_paths st x1 Hx1)).
    + by apply StronglySorted_app_1_l in Hage.
    + repeat constructor.
  - split; unfold timeline; rewrite ?Hp, ?Hr, ?Hc; rewrite Hcur in *; auto.
  - assert (Hnr : _redoPaths st = []) by (apply Hnoredo; by rewrite Hcur).
    rewrite Hcur, Hnr in Hage. simpl in Hage.
    split; unfold timeline; rewrite ?Hp, ?Hr, ?Hc, ?Hnr; simpl; [|by intros [? ?]].
    rewrite !app_nil_r in *. done.
  - rewrite Hidle in Hage. simpl in Hage.
    split; unfold timeline; rewrite ?Hr, ?Hc; simpl; [|by intros [? ?]].
    rewrite Hp in Hage. rewrite rev_app_distr. simpl.
    rewrite app_nil_r in *. by rewrite <- app_assoc in Hage.
  - rewrite Hidle in Hage. simpl in Hage.
    split; unfold timeline; rewrite ?Hp, ?Hc; simpl; [|by intros [? ?]].
    rewrite Hr, rev_app_distr in Hage. simpl in Hage.
    rewrite app_nil_r in *. by rewrite <- app_assoc.
  - rewrite Hidle in Hage. simpl in Hage. rewrite app_nil_r in Hage.
    split; unfold timeline; rewrite ?Hp, ?Hr, ?Hc; simpl; [|by intros [? ?]].
    rewrite app_nil_r. by apply StronglySorted_app_1_r in Hage.
Qed.

Lemma reachable_in_order s : reachable s -> in_order (fst s).
Proof.
  induction 1 as [px py debug|op s Hreach IH].
  - split; simpl; [constructor|done].
  - eapply in_order_transition; [|done|apply run_op_transition].
    by apply reachable_consistent.
Qed.

(** X18.  In every state the canvas can reach, the strokes are held in
    the order they were created: the undo list oldest first, then the redo
    list newest first read backwards, then the path in progress; and the
    redo list is empty while a path is in progress.  So [undo] always
    takes back the newest stroke of the undo list, and [redo] gives back
    the oldest stroke that was undone. *)
Theorem strokes_in_creation_order s :
  reachable s ->
  StronglySorted lt
    (_paths (fst s) ++ rev (_redoPaths (fst s)) ++
     option_list (_currentPath (fst s))) /\
  (is_Some (_currentPath (fst s)) -> _redoPaths (fst s) = []).
Proof.
  intros Hreach. destruct (reachable_in_order s Hreach) as [Hage Hnoredo].
  unfold timeline in Hage. by rewrite <- app_assoc in Hage.
Qed.

(** ** Strokes are children of the drawing plane *)




End Facts.

(** * The canvas at work on the small host *)

Lemma demo_pick_honours : @pick_honours_isPickable demo_host.
Proof.
  intros sc px py info. simpl. unfold demo_pick.
  destruct (Qle_bool 0 px && Qle_bool px 1 && Qle_bool 0 py && Qle_bool py 1);
    [|by intros [= <-]].
  destruct (list_find _ (objects sc)) as [[i m]|] eqn:Hfind; [|by intros [= <-]].
  intros [= <-] _. simpl.
  apply list_find_Some in Hfind as (Hi & Hm & _).
  exists m. split; [done|]. by apply Is_true_true.
Qed.

Lemma demo_two_strokes_reachable : @reachable demo_host demo_two_strokes.
Proof. apply reachable_run. apply (@reachable_new demo_host). Qed.

Lemma demo_drawing_reachable : @reachable demo_host demo_drawing.
Proof. apply reachable_run, demo_two_strokes_reachable. Qed.

(** The two strokes of [demo_two_strokes] are objects 1 and 2, created in
    this order: the first [startPath] made object 1 the path in progress,
    the second one object 2. *)
Example demo_creation_order :
  _currentPath (fst (@run demo_host [OpStartPath] demo_start)) = Some 1%nat /\
  _currentPath
    (fst (@run demo_host [OpStartPath; OpExtendPath; OpEndPath; OpStartPath]
            demo_start)) = Some 2%nat /\
  _paths (fst demo_two_strokes) = [1; 2]%nat /\
  _redoPaths (fst demo_two_strokes) = [] /\
  _currentPath (fst demo_two_strokes) = None.
Proof. vm_compute. repeat split. Qed.

(** C1, at work: the pointer is off the canvas, stroke 2 is on the redo
    list. *)
Lemma startPath_miss_in_idle_witness :
  let st := fst demo_off_canvas in
  let sc := snd demo_off_canvas in
  @startPath demo_host st sc = (Normal (JsBoolean false), set_redoPaths [] st, sc) /\
  _paths (set_redoPaths [] st) = _paths st /\
  _currentPath (set_redoPaths [] st) = None /\
  _redoPaths (set_redoPaths [] st) = [].
Proof.
  apply (@startPath_miss_in_idle demo_host); vm_compute; reflexivity.
Defined.

(** C1 as stated fails there: the call returns [false] on the miss, and
    the redo list, which held stroke 2, is empty afterwards, so the canvas
    is not what it was. *)
Lemma startPath_miss_loses_redo :
  let st := fst demo_off_canvas in
  let sc := snd demo_off_canvas in
  _currentPath st = None /\
  pick_hit (@pick demo_host sc (pointerX sc) (pointerY sc)) = false /\
  _redoPaths st = [2%nat] /\
  exists st',
    @startPath demo_host st sc = (Normal (JsBoolean false), st', sc) /\
    _redoPaths st' = [] /\
    st' <> st.
Proof.
  vm_compute. repeat split. eexists. repeat split.
  intros Heq. discriminate Heq.
Qed.

(** C2, at work on the two strokes 1 and 2. *)
Lemma undo_undo_redo_two_strokes_witness :
  let s3 :=
    @after demo_host _ redo
      (@after demo_host _ undo
         (@after demo_host _ undo
            (fst demo_two_strokes, snd demo_two_strokes))) in
  _paths (fst s3) = [1%nat] /\
  _redoPaths (fst s3) = [2%nat] /\
  length (_paths (fst s3)) = 1%nat /\
  length (_redoPaths (fst s3)) = 1%nat /\
  calls (snd s3) =
    calls (snd demo_two_strokes) ++ [removeMesh 2; removeMesh 1; addMesh 1] /\
  last (calls (snd s3)) = Some (addMesh 1).
Proof.
  apply (@undo_undo_redo_two_strokes demo_host
           (fst demo_two_strokes) (snd demo_two_strokes) 1%nat 2%nat);
    [vm_compute; reflexivity .. | lia].
Defined.

(** C2 as stated fails there: after [undo(); undo(); redo()] each list
    holds one stroke, but the mesh that [redo] hands back to the scene is
    stroke 1, the first-created, and not stroke 2, the second-created one,
    which is still on the redo list. *)
Lemma undo_undo_redo_reattaches_first :
  let s3 := @run demo_host [OpUndo; OpUndo; OpRedo] demo_two_strokes in
  _paths (fst demo_two_strokes) = [1; 2]%nat /\
  length (_paths (fst s3)) = 1%nat /\
  length (_redoPaths (fst s3)) = 1%nat /\
  last (calls (snd s3)) = Some (addMesh 1) /\
  last (calls (snd s3)) <> Some (addMesh 2) /\
  _redoPaths (fst s3) = [2%nat].
Proof. vm_compute. repeat split. discriminate. Qed.

(** C3, at work: two strokes to clear. *)
Lemma clear_disposes_every_stroke_witness :
  exists st' sc',
    @clear demo_host (fst demo_two_strokes) (snd demo_two_strokes) =
      (Normal tt, st', sc') /\
    _paths st' = [] /\
    calls sc' =
      calls (snd demo_two_strokes) ++
      map dispose (rev (_paths (fst demo_two_strokes))) /\
    length (map dispose (rev (_paths (fst demo_two_strokes)))) = 2%nat /\
    _redoPaths st' = _redoPaths (fst demo_two_strokes).
Proof.
  apply (@clear_disposes_every_stroke demo_host
           (fst demo_two_strokes) (snd demo_two_strokes) 2%nat);
    [vm_compute; reflexivity .. | lia].
Defined.

(** C4, at work: the third stroke is committed, undone and redone. *)
Lemma endPath_undo_redo_roundtrip_witness :
  let s1 := @after demo_host _ endPath (fst demo_drawing, snd demo_drawing) in
  let s3 := @after demo_host _ redo (@after demo_host _ undo s1) in
  fst s3 = fst s1 /\
  last (_paths (fst s3)) = Some 3%nat /\
  length (_paths (fst s3)) = length (_paths (fst s1)) /\
  length (_redoPaths (fst s3)) = length (_redoPaths (fst s1)) /\
  objects (snd s3) = objects (snd s1) /\
  calls (snd s3) = calls (snd s1) ++ [removeMesh 3; addMesh 3] /\
  attached (calls (snd s3)) 3%nat = true.
Proof.
  apply (@endPath_undo_redo_roundtrip demo_host
           (fst demo_drawing) (snd demo_drawing) 3%nat).
  vm_compute. reflexivity.
Defined.

(** C5, at work: the brush size is zero and the pointer is over the
    drawing plane. *)
Lemma startPath_nonpositive_radius_witness :
  exists st',
    @startPath demo_host (fst demo_zero_size) (snd demo_zero_size) =
      (Throw InvalidBrushParameter, st', snd demo_zero_size) /\
    _currentPath st' = None /\
    _paths st' = _paths (fst demo_zero_size) /\
    _redoPaths st' = [] /\
    _currentSize st' = _currentSize (fst demo_zero_size) /\
    _currentColor st' = _currentColor (fst demo_zero_size) /\
    _currentMode st' = _currentMode (fst demo_zero_size) /\
    _invertedWorldMatrix st' = Vector3.mk (- 0) (- 0) (- 0).
Proof.
  apply (@startPath_nonpositive_radius demo_host
           (fst demo_zero_size) (snd demo_zero_size)
           (mkPickingInfo true 0 (Vector3.mk (1 # 2) (1 # 2) 0))).
  - intros options. reflexivity.
  - vm_compute. reflexivity.
  - vm_compute. reflexivity.
  - reflexivity.
  - vm_compute. discriminate.
Defined.

(** Read as "the canvas is what it was before the failed call", C5 fails
    there: [startPath] throws [InvalidBrushParameter], and the redo list,
    which held stroke 2, is empty afterwards. *)
Lemma startPath_nonpositive_radius_loses_redo :
  let st := fst demo_zero_size in
  let sc := snd demo_zero_size in
  _currentPath st = None /\
  (_currentSize st * _sizeScaleFactor st <= 0)%Q /\
  _redoPaths st = [2%nat] /\
  exists st',
    @startPath demo_host st sc = (Throw InvalidBrushParameter, st', sc) /\
    _redoPaths st' = [] /\
    st' <> st.
Proof.
  vm_compute. split; [reflexivity|]. split; [discriminate|].
  split; [reflexivity|]. eexists. repeat split.
  intros Heq. discriminate Heq.
Qed.

(** C6, at work: a third stroke is in progress. *)
Lemma history_noop_while_drawing_witness :
  let st := fst demo_drawing in
  let sc := snd demo_drawing in
  @undo demo_host st sc = (Normal tt, st, sc) /\
  @redo demo_host st sc = (Normal tt, st, sc) /\
  @clear demo_host st sc = (Normal tt, st, sc).
Proof.
  apply (@history_noop_while_drawing demo_host _ _ 3%nat).
  vm_compute. reflexivity.
Defined.

(** C7, at work: a third stroke is in progress. *)
Lemma startPath_noop_while_drawing_witness :
  let st := fst demo_drawing in
  let sc := snd demo_drawing in
  @startPath demo_host st sc = (Normal undefined, st, sc) /\
  (length (option_list (_currentPath st)) <= 1)%nat /\
  (3%nat ∉ _paths st) /\ (3%nat ∉ _redoPaths st) /\ NoDup (held st).
Proof.
  assert (Hcur : @_currentPath demo_host (fst demo_drawing) = Some 3%nat)
    by (vm_compute; reflexivity).
  destruct (@startPath_noop_while_drawing demo_host demo_drawing 3%nat Hcur)
    as (Hnoop & Hone & Hheld).
  split; [exact Hnoop|]. split; [exact Hone|].
  exact (Hheld demo_drawing_reachable).
Defined.

(** C8, in Idle: on a fresh canvas [extendPath] does nothing and hands
    back [undefined], which is not the boolean [false]. *)
Theorem extendPath_in_idle_returns_undefined :
  _currentPath (fst demo_start) = None /\
  @extendPath demo_host (fst demo_start) (snd demo_start) =
    (Normal undefined, fst demo_start, snd demo_start) /\
  undefined <> JsBoolean false.
Proof. vm_compute. repeat split. discriminate. Qed.

(** C10, at work: two strokes lie on the plane and the pointer is over
    them. *)
Lemma picks_never_hit_a_stroke_witness :
  let s := demo_two_strokes in
  (forall st' sc',
     @startPath demo_host (fst s) (snd s) = (Normal (JsBoolean true), st', sc') ->
     exists path m,
       _currentPath st' = Some path /\ objects sc' !! path = Some m /\
       is_path m = true /\ isPickable m = false) /\
  (forall i m,
     objects (snd s) !! i = Some m -> is_path m = true -> isPickable m = false) /\
  (forall info,
     @pick demo_host (snd s) (pointerX (snd s)) (pointerY (snd s)) = Some info ->
     hit info = true ->
     pickedMesh info = 0%nat /\
     exists m, objects (snd s) !! pickedMesh info = Some m /\ is_path m = false).
Proof.
  exact (@picks_never_hit_a_stroke demo_host demo_two_strokes
           demo_pick_honours demo_two_strokes_reachable).
Defined.

(** * More of the canvas at work on the small host *)

Lemma demo_undone_reachable : @reachable demo_host demo_undone.
Proof. apply reachable_run, demo_two_strokes_reachable. Qed.


Lemma demo_undone_reachable_pair :
  @reachable demo_host (fst demo_undone, snd demo_undone).
Proof. rewrite <- surjective_pairing. apply demo_undone_reachable. Qed.


(** X1, at work: the third stroke is committed. *)
Lemma endPath_commits_once_witness :
  let st := fst demo_drawing in
  let sc := snd demo_drawing in
  let s1 := @after demo_host _ endPath (st, sc) in
  _paths (fst s1) = _paths st ++ [3%nat] /\
  _redoPaths (fst s1) = _redoPaths st /\
  _currentPath (fst s1) = None /\
  snd s1 = sc /\
  @after demo_host _ endPath s1 = s1.
Proof.
  apply (@endPath_commits_once demo_host (fst demo_drawing) (snd demo_drawing) 3%nat).
  vm_compute. reflexivity.
Defined.

(** X2, at work on the two strokes. *)
Lemma undo_redo_identity_witness :
  let st := fst demo_two_strokes in
  let sc := snd demo_two_strokes in
  exists path,
    last (_paths st) = Some path /\
    @after demo_host _ redo (@after demo_host _ undo (st, sc)) =
      (st, Scene_addMesh path (Scene_removeMesh path sc)).
Proof.
  apply (@undo_redo_identity demo_host).
  - vm_compute. reflexivity.
  - vm_compute. discriminate.
Defined.

(** X3, at work: stroke 2 is on the redo list. *)
Lemma redo_undo_identity_witness :
  let st := fst demo_undone in
  let sc := snd demo_undone in
  exists path,
    last (_redoPaths st) = Some path /\
    @after demo_host _ undo (@after demo_host _ redo (st, sc)) =
      (st, Scene_removeMesh path (Scene_addMesh path sc)).
Proof.
  apply (@redo_undo_identity demo_host).
  - vm_compute. reflexivity.
  - vm_compute. discriminate.
Defined.

(** X4, at work on a fresh canvas. *)
Lemma history_noop_on_empty_witness :
  let st := fst demo_start in
  let sc := snd demo_start in
  @undo demo_host st sc = (Normal tt, st, sc) /\
  @clear demo_host st sc = (Normal tt, st, sc) /\
  @redo demo_host st sc = (Normal tt, st, sc).
Proof.
  destruct (@history_noop_on_empty demo_host (fst demo_start) (snd demo_start))
    as [Hpaths Hredo].
  assert (Hp : @_paths demo_host (fst demo_start) = []) by (vm_compute; reflexivity).
  assert (Hr : @_redoPaths demo_host (fst demo_start) = []) by (vm_compute; reflexivity).
  destruct (Hpaths Hp) as [Hundo Hclear].
  split; [exact Hundo|]. split; [exact Hclear|]. exact (Hredo Hr).
Defined.

(** X5, at work: a mix of undos and redos on the two strokes. *)
Lemma undo_redo_keep_timeline_witness :
  let ops := [OpUndo; OpRedo; OpUndo; OpUndo; OpUndo; OpRedo] in
  timeline (fst (@run demo_host ops demo_two_strokes)) =
    timeline (fst demo_two_strokes) /\
  _currentPath (fst (@run demo_host ops demo_two_strokes)) =
    _currentPath (fst demo_two_strokes) /\
  objects (snd (@run demo_host ops demo_two_strokes)) =
    objects (snd demo_two_strokes).
Proof.
  apply (@undo_redo_keep_timeline demo_host). reflexivity.
Defined.

(** X6, at work: both strokes undone, both redone. *)
Lemma undo_n_redo_n_witness :
  fst (@run demo_host (replicate 2 OpUndo ++ replicate 2 OpRedo) demo_two_strokes) =
    fst demo_two_strokes /\
  objects
    (snd (@run demo_host (replicate 2 OpUndo ++ replicate 2 OpRedo)
            demo_two_strokes)) =
    objects (snd demo_two_strokes).
Proof.
  apply (@undo_n_redo_n demo_host 2 demo_two_strokes).
  - vm_compute. reflexivity.
  - vm_compute. lia.
Defined.

(** X7, at work: a third stroke is started over the drawing plane. *)
Lemma startPath_starts_stroke_witness :
  let st := fst demo_two_strokes in
  let sc := snd demo_two_strokes in
  let info := mkPickingInfo true 0 (Vector3.mk (1 # 2) (1 # 2) 0) in
  let local :=
    @TransformCoordinates demo_host (pickedPoint info)
      (@invert demo_host (@getWorldMatrix demo_host sc (pickedMesh info))) in
  exists st' sc' m,
    @startPath demo_host st sc = (Normal (JsBoolean true), st', sc') /\
    _currentPath st' = Some (length (objects sc)) /\
    _paths st' = _paths st /\
    _redoPaths st' = [] /\
    objects sc' = objects sc ++ [m] /\
    calls sc' = calls sc /\
    geometry m =
      Path "path" (Vector3.x local, Vector3.y local) (path_options st) [] /\
    parent m = Some (pickedMesh info) /\
    renderingGroupId m = 2%Z /\
    isPickable m = false /\
    alwaysSelectAsActiveMesh m = true /\
    worldMatrixFrozen m = true /\
    (isFrozen <$> material m) = Some true.
Proof.
  apply (@startPath_starts_stroke demo_host
           (fst demo_two_strokes) (snd demo_two_strokes)
           (mkPickingInfo true 0 (Vector3.mk (1 # 2) (1 # 2) 0)));
    vm_compute; reflexivity.
Defined.

(** X9, at work: the stroke in progress is alive. *)
Lemma held_strokes_are_alive_witness :
  exists m,
    objects (snd demo_drawing) !! 3%nat = Some m /\
    is_path m = true /\ isDisposed m = false.
Proof.
  apply (@held_strokes_are_alive demo_host demo_drawing 3%nat).
  - exact demo_drawing_reachable.
  - vm_compute. repeat constructor.
Defined.

(** X10, at work: stroke 1 is shown, stroke 2 is undone. *)
Lemma scene_shows_undo_list_witness :
  (forall i,
     i ∈ _paths (fst demo_undone) ++ option_list (_currentPath (fst demo_undone)) ->
     attached (calls (snd demo_undone)) i = true) /\
  (forall i, i ∈ _redoPaths (fst demo_undone) ->
     attached (calls (snd demo_undone)) i = false).
Proof.
  exact (@scene_shows_undo_list demo_host demo_undone demo_undone_reachable).
Defined.



(** X13, at work: black ink for the third stroke. *)
Lemma changeColor_decides_material_witness :
  let st := fst demo_two_strokes in
  let sc := snd demo_two_strokes in
  let s2 :=
    @after demo_host _ startPath
      (@after demo_host _ (changeColor Color3.Black) (st, sc)) in
  exists m,
    _currentPath (fst s2) = Some (length (objects sc)) /\
    objects (snd s2) !! length (objects sc) = Some m /\
    material m =
      Some (if _debug st
            then mkMaterial "debugMaterial" DebugMaterial false true
            else mkMaterial "pathMaterial" (SimpleMaterial Color3.Black) false true).
Proof.
  apply (@changeColor_decides_material demo_host
           (fst demo_two_strokes) (snd demo_two_strokes)
           (mkPickingInfo true 0 (Vector3.mk (1 # 2) (1 # 2) 0)));
    vm_compute; reflexivity.
Defined.

(** X14, at work: a gesture over the drawing plane. *)
Lemma gesture_commits_at_most_one_stroke_witness :
  let s := demo_two_strokes in
  let s' :=
    @deliver_all demo_host
      (gesture (1 # 2, 1 # 2) [(1 # 4, 1 # 4); (3 # 1, 3 # 1); (3 # 4, 1 # 2)]
         (1 # 1, 1 # 1)) s in
  _currentPath (fst s') = None /\
  _redoPaths (fst s') = [] /\
  calls (snd s') = calls (snd s) /\
  ((_paths (fst s') = _paths (fst s) /\ objects (snd s') = objects (snd s)) \/
   (_paths (fst s') = _paths (fst s) ++ [length (objects (snd s))] /\
    length (objects (snd s')) = S (length (objects (snd s))))).
Proof.
  apply (@gesture_commits_at_most_one_stroke demo_host).
  vm_compute. reflexivity.
Defined.

(** X15, at work: stroke 2 is undone, stroke 1 is cleared, stroke 2 is
    redone. *)
Lemma clear_then_redo_witness :
  let st := fst demo_undone in
  let sc := snd demo_undone in
  let s2 := @after demo_host _ redo (@after demo_host _ clear (st, sc)) in
  _paths (fst s2) = [2%nat] /\
  _redoPaths (fst s2) = [] /\
  objects (snd s2) !! 2%nat = objects sc !! 2%nat /\
  (exists m, objects (snd s2) !! 2%nat = Some m /\ isDisposed m = false) /\
  last (calls (snd s2)) = Some (addMesh 2).
Proof.
  apply (@clear_then_redo demo_host (fst demo_undone) (snd demo_undone) [] 2%nat).
  - exact demo_undone_reachable_pair.
  - vm_compute. reflexivity.
  - vm_compute. reflexivity.
Defined.


(** X17, at work: stroke 2 is on the redo list when a new stroke starts. *)
Lemma startPath_drops_redo_undisposed_witness :
  let st := fst demo_undone in
  let sc := snd demo_undone in
  let s1 := @after demo_host _ startPath (st, sc) in
  (2%nat ∉ held (fst s1)) /\
  objects (snd s1) !! 2%nat = objects sc !! 2%nat /\
  (exists m, objects (snd s1) !! 2%nat = Some m /\ isDisposed m = false) /\
  attached (calls (snd s1)) 2%nat = false.
Proof.
  apply (@startPath_drops_redo_undisposed demo_host
           (fst demo_undone) (snd demo_undone) 2%nat).
  - exact demo_undone_reachable_pair.
  - vm_compute. reflexivity.
  - vm_compute. repeat constructor.
Defined.

(** X18, at work: two strokes committed, a third in progress. *)
Lemma strokes_in_creation_order_witness :
  StronglySorted lt
    (_paths (fst demo_drawing) ++ rev (_redoPaths (fst demo_drawing)) ++
     option_list (_currentPath (fst demo_drawing))) /\
  (is_Some (_currentPath (fst demo_drawing)) -> _redoPaths (fst demo_drawing) = []).
Proof.
  exact (@strokes_in_creation_order demo_host demo_drawing demo_drawing_reachable).
Defined.

